(** * Verification of the numeric core of the statistics demos

  Two JavaScript modules are embedded here:
    - [src/js/clt-demo.js]: the Central Limit Theorem simulator,
    - [src/js/bivariate-demo.js]: the bivariate joint/marginal/conditional explorer.

  Number model.  A JavaScript Number is modelled as a real number ([R]) and
  [Math.exp], [Math.sqrt], [Math.log], [Math.abs], [Math.pow] as their exact
  real counterparts: the statements are statements of exact real arithmetic.
  What binary64 adds within a rounding tolerance is outside this model.
  Where binary64 changes what a function returns beyond any tolerance, the
  source expressions are evaluated in IEEE 754 binary64 with the kernel's
  primitive floats, in [Module Binary64]: the conditional slice at a query
  point so far from the grid that [Math.exp] underflows to 0 (and, beside the
  real value, the error function at 0).

  Randomness.  [Math.random()] is a stream of numbers given to the simulation;
  for the moments of a sampler it is uniform on the unit interval.

  Partiality.  An array read that JavaScript would answer with [undefined]
  (and the [NaN] or [TypeError] that follows) is [None]; an uncaught exception
  of the simulator is [Throw]. *)

From Stdlib Require Import Reals Lra Lia List ZArith Bool.
From Stdlib Require Import Permutation Sorted.
From Stdlib Require String Floats.
Import ListNotations String.StringSyntax.
Delimit Scope string_scope with string.

Open Scope R_scope.

(** ** Library functions the sources call *)

Module D3.

(** [Math.ceil] on a real. *)
Definition ceil (r : R) : Z := (- Int_part (- r))%Z.

(** [d3.range(start, stop, step)]:
    [n = Math.max(0, Math.ceil((stop - start) / step)) | 0] elements
    [start + i * step] (the truncation [| 0] to 32 bits leaves a count of this
    size as it is). *)
Definition range (start stop step : R) : list R :=
  let n := Z.to_nat (Z.max 0 (ceil ((stop - start) / step))) in
  map (fun i => start + INR i * step) (seq 0 n).

(** [d3.ascending(a, b)] on numbers: [-1], [1] or [0]. *)
Definition ascending (a b : R) : Z :=
  if Rlt_dec a b then (-1)%Z else if Rgt_dec a b then 1%Z else 0%Z.

(** [Array.prototype.sort(compare)] is a stable sort, and on a consistent
    comparator every stable sort returns the same array: stable insertion
    sort stands for it ([a], which comes first, stays before what compares
    equal to it). *)
Fixpoint insert (compare : R -> R -> Z) (a : R) (l : list R) : list R :=
  match l with
  | [] => [a]
  | b :: l' =>
      if (compare a b <=? 0)%Z then a :: l else b :: insert compare a l'
  end.

Fixpoint sort (compare : R -> R -> Z) (l : list R) : list R :=
  match l with
  | [] => []
  | a :: l' => insert compare a (sort compare l')
  end.

(** [d3.descending(a, b)] on numbers: [-1], [1] or [0]. *)
Definition descending (a b : R) : Z :=
  if Rlt_dec b a then (-1)%Z else if Rgt_dec b a then 1%Z else 0%Z.

(** [d3.max(values)]: [let max; for (const value of values) if (max < value
    || (max === undefined && value >= value)) max = value;], [None] being
    [undefined]. *)
Definition max (values : list R) : option R :=
  fold_left (fun max value =>
               match max with
               | None => Some value
               | Some m => if Rlt_dec m value then Some value else Some m
               end) values None.

(** [d3.min(values)], the same loop with [min > value]. *)
Definition min (values : list R) : option R :=
  fold_left (fun min value =>
               match min with
               | None => Some value
               | Some m => if Rgt_dec m value then Some value else Some m
               end) values None.

End D3.

(** [arr.reduce((a, b) => a + b, 0)] *)
Definition reduce_add (l : list R) : R := fold_left (fun a b => a + b) l 0.

(** [arr.map((x, i) => g(x, i))] with a callback that can fail. *)
Fixpoint mapi_from {A B : Type} (g : A -> nat -> option B) (i : nat) (l : list A)
: option (list B) :=
match l with
| [] => Some []
| x :: l' =>
    match g x i with
    | None => None
    | Some b =>
        match mapi_from g (S i) l' with
        | None => None
        | Some bs => Some (b :: bs)
        end
    end
end.

Definition mapi {A B : Type} (g : A -> nat -> option B) (l : list A) : option (list B) :=
mapi_from g 0 l.

(** [let sum = 0; for (let k = from; k < from + count; k++) sum += get(k);]
  started with the accumulator [sum]. *)
Fixpoint sum_loop (get : nat -> option R) (from count : nat) (sum : R) : option R :=
match count with
| O => Some sum
| S c =>
    match get from with
    | None => None
    | Some v => sum_loop get (S from) c (sum + v)
    end
end.

(** [M[r][c]] *)
Definition at2 (M : list (list R)) (r c : nat) : option R :=
match nth_error M r with
| None => None
| Some row => nth_error row c
end.

(** The sum of a list, right to left: the mathematical [Σ] of the statements. *)
Definition Rsum (l : list R) : R := fold_right Rplus 0 l.

(** The Riemann sum [Σ v[i] * d] of a sampled curve. *)
Definition riemann_sum (v : list R) (d : R) : R := Rsum (map (fun a => a * d) v).

(** ** src/js/bivariate-demo.js *)

Module Bivariate.

(** [function f(x, y)] *)
Definition f (x y : R) : R := -10 * (y - x * x) ^ 2 - y * y.

Definition xgrid : list R := D3.range (-2) 2.05 0.05.
Definition ygrid : list R := D3.range (-2) 4.05 0.05.
Definition dx : R := nth 1 xgrid 0 - nth 0 xgrid 0.
Definition dy : R := nth 1 ygrid 0 - nth 0 ygrid 0.

(** [const Z = ygrid.slice().reverse().map(y => xgrid.map(x => Math.exp(f(x, y))))] *)
Definition Z : list (list R) :=
  map (fun y => map (fun x => exp (f x y)) xgrid) (rev ygrid).

(** [const marginal_x = xgrid.map((x, i) => { ... })] *)
Definition marginal_x : option (list R) :=
  mapi (fun _ i =>
          match sum_loop (fun j => at2 Z j i) 0 (length ygrid) 0 with
          | None => None
          | Some sum => Some (sum * dy)
          end) xgrid.

(** [const marginal_y = ygrid.map((y, j) => { ... })] *)
Definition marginal_y : option (list R) :=
  mapi (fun _ j =>
          let z_row_index := (length ygrid - 1 - j)%nat in
          match sum_loop (fun i => at2 Z z_row_index i) 0 (length xgrid) 0 with
          | None => None
          | Some sum => Some (sum * dx)
          end) ygrid.

Record conditionals : Type := {
  x_given_y : list R;
  y_given_x : list R
}.

(** The locals of [getConditionalDistributions]. *)
Definition conditional_x_given_y (y_value : R) : list R :=
  map (fun x => exp (f x y_value)) xgrid.
Definition sum_x (y_value : R) : R :=
  reduce_add (conditional_x_given_y y_value) * dx.
Definition conditional_y_given_x (x_value : R) : list R :=
  map (fun y => exp (f x_value y)) ygrid.
Definition sum_y (x_value : R) : R :=
  reduce_add (conditional_y_given_x x_value) * dy.

(** [function getConditionalDistributions(x_value, y_value)] *)
Definition getConditionalDistributions (x_value y_value : R) : conditionals :=
  {| x_given_y := map (fun v => v / sum_x y_value) (conditional_x_given_y y_value);
     y_given_x := map (fun v => v / sum_y x_value) (conditional_y_given_x x_value) |}.

(** *** The numbers [createVisualization] computes before it draws *)

(** [Z.flat()] *)
Definition z_flat : list R := concat Z.

Definition maxZ : option R := D3.max z_flat.
Definition minZ : option R := D3.min z_flat.
Definition nLevels : R := 20.

(** [d3.range(nLevels).map(i => minZ + (maxZ - minZ) * i / (nLevels - 1))] *)
Definition thresholds : option (list R) :=
  match minZ, maxZ with
  | Some lo, Some hi =>
      Some (map (fun i => lo + (hi - lo) * i / (nLevels - 1)) (D3.range 0 nLevels 1))
  | _, _ => None
  end.

(** [z_flat.reduce((a, b) => a + b, 0)] *)
Definition total_mass : R := reduce_add z_flat.

(** [[...z_flat].sort(d3.descending)] *)
Definition sorted_z_values : list R := D3.sort D3.descending z_flat.

(** [for (const z_value of sorted_z_values) { cumulative_mass += z_value;
    if (cumulative_mass / total_mass >= 0.99) { hdr_threshold = z_value;
    break; } }], entered with the two variables as given; the result is
    [(cumulative_mass, hdr_threshold)] after the loop. *)
Fixpoint hdr_loop (values : list R) (total cumulative_mass hdr_threshold : R)
  : R * R :=
  match values with
  | [] => (cumulative_mass, hdr_threshold)
  | z_value :: rest =>
      let cumulative_mass := cumulative_mass + z_value in
      if Rge_dec (cumulative_mass / total) 0.99
      then (cumulative_mass, z_value)
      else hdr_loop rest total cumulative_mass hdr_threshold
  end.

Definition hdr_threshold : R := snd (hdr_loop sorted_z_values total_mass 0 0).

(** The condition [hdr_threshold > 0 & false]: [&] takes both booleans as the
    integers 1 and 0, and [if] takes its result as true when it is not 0. *)
Definition draws_hdr_contour (hdr_threshold : R) : bool :=
  let to_int := fun b : bool => if b then 1%Z else 0%Z in
  negb (Z.land (to_int (if Rgt_dec hdr_threshold 0 then true else false))
               (to_int false) =? 0)%Z.




End Bivariate.

(** ** src/js/clt-demo.js *)

Module Clt.

(** *** [const normal = { pdf, erf, cdf }] *)

Module normal.

Definition pdf (x : R) : R := (1 / sqrt (2 * PI)) * exp (-0.5 * x * x).

(** Abramowitz and Stegun approximation for erf(x) *)
Definition erf (x : R) : R :=
  let sign := if Rge_dec x 0 then 1 else -1 in
  let x := Rabs x in
  let a1 := 0.254829592 in
  let a2 := -0.284496736 in
  let a3 := 1.421413741 in
  let a4 := -1.453152027 in
  let a5 := 1.061405429 in
  let p := 0.3275911 in
  let t := 1.0 / (1.0 + p * x) in
  let y := 1.0 - (((((a5 * t + a4) * t) + a3) * t + a2) * t + a1) * t * exp (- x * x) in
  sign * y.

Definition cdf (x : R) : R := 0.5 * (1 + erf (x / sqrt 2)).

End normal.

(** *** The distribution registry *)

Definition skewed_p1 : R := 0.7.
Definition skewed_p2 : R := 0.2.
Definition skewed_mean : R :=
  0 * skewed_p1 + 1 * skewed_p2 + 10 * (1 - skewed_p1 - skewed_p2).
Definition skewed_mean_sq : R :=
  0 * skewed_p1 + 1 * skewed_p2 + 100 * (1 - skewed_p1 - skewed_p2).
Definition skewed_var : R := skewed_mean_sq - skewed_mean ^ 2.

(** An entry of [distributions].  Every [random] of the source calls
    [Math.random()] exactly once; [random] is the sampler as a function of the
    number [u] that call returned. *)
Record Distribution : Type := {
  mean : R;
  std : R;
  random : R -> R
}.

Definition Uniform : Distribution :=
  {| mean := 0.5; std := 1 / sqrt 12; random := fun u => u |}.

Definition Exponential : Distribution :=
  {| mean := 1; std := 1; random := fun u => - ln (1 - u) |}.

Definition Bernoulli : Distribution :=
  {| mean := 0.5; std := 0.5; random := fun u => if Rlt_dec u 0.5 then 1 else 0 |}.

Definition Skewed_Discrete : Distribution :=
  {| mean := skewed_mean;
     std := sqrt skewed_var;
     random := fun val =>
       if Rlt_dec val skewed_p1 then 0
       else if Rlt_dec val (skewed_p1 + skewed_p2) then 1
       else 10 |}.

(** What [distributions[distName]] evaluates to: an entry of the object
    literal, a member inherited from [Object.prototype] (none of which has a
    [random], [std] or [mean] property), or [undefined]. *)
Inductive property : Type :=
| Own (d : Distribution)
| Inherited
| Undefined.

Definition Object_prototype_names : list String.string :=
  [ "constructor"; "__defineGetter__"; "__defineSetter__"; "hasOwnProperty";
    "__lookupGetter__"; "__lookupSetter__"; "isPrototypeOf";
    "propertyIsEnumerable"; "toString"; "valueOf"; "__proto__";
    "toLocaleString" ]%string.

Definition registered_names : list String.string :=
  [ "Uniform"; "Exponential"; "Bernoulli"; "Skewed Discrete" ]%string.

Definition distributions (distName : String.string) : property :=
  if String.eqb distName "Uniform" then Own Uniform
  else if String.eqb distName "Exponential" then Own Exponential
  else if String.eqb distName "Bernoulli" then Own Bernoulli
  else if String.eqb distName "Skewed Discrete" then Own Skewed_Discrete
  else if existsb (String.eqb distName) Object_prototype_names then Inherited
  else Undefined.

(** *** The simulation of [createVisualization]

    A computation reads the stream of numbers [Math.random()] returns and may
    throw.  The state counts the calls of [Math.random()] made so far and keeps,
    as a trace, every division the standardization line
    [(sampleMean - dist.mean) / (dist.std / Math.sqrt(sampleSize))]
    has evaluated, as (dividend, divisor). *)

Inductive error : Type := TypeError.

Record state : Type := {
  calls : nat;
  divisions : list (R * R)
}.

Definition initial : state := {| calls := 0; divisions := [] |}.

Inductive result (A : Type) : Type :=
| Ok (a : A) (s : state)
| Throw (e : error) (s : state).
Arguments Ok {A} a s.
Arguments Throw {A} e s.

Definition M (A : Type) : Type := state -> result A.

Definition ret {A : Type} (a : A) : M A := fun s => Ok a s.

Definition bind {A B : Type} (m : M A) (k : A -> M B) : M B :=
  fun s => match m s with
           | Ok a s' => k a s'
           | Throw e s' => Throw e s'
           end.

Definition throw {A : Type} (e : error) : M A := fun s => Throw e s.

Notation "x <- m ;; k" := (bind m (fun x => k))
  (at level 61, m at next level, right associativity).

(** [a / b] inside the standardization line. *)
Definition divide (a b : R) : M R :=
  fun s => Ok (a / b) {| calls := calls s; divisions := divisions s ++ [(a, b)] |}.

Section Simulation.

(** The [k]-th number returned by [Math.random()], counted from 0. *)
Variable Math_random : nat -> R.

(** [dist.random()] *)
Definition call_random (dist : property) : M R :=
  match dist with
  | Own d => fun s =>
      Ok (random d (Math_random (calls s)))
         {| calls := S (calls s); divisions := divisions s |}
  | Inherited | Undefined => throw TypeError
  end.

(** [dist.std > 0]: reading a property of [undefined] throws; the missing
    property of another object is [undefined], and [undefined > 0] is false. *)
Definition std_positive (dist : property) : M bool :=
  match dist with
  | Own d => ret (if Rlt_dec 0 (std d) then true else false)
  | Inherited => ret false
  | Undefined => throw TypeError
  end.

(** [for (let j = 0; j < sampleSize; j++) sum += dist.random();] with [count]
    iterations left. *)
Fixpoint sample_sum (dist : property) (count : nat) (sum : R) : M R :=
  match count with
  | O => ret sum
  | S c => v <- call_random dist ;; sample_sum dist c (sum + v)
  end.

(** The body of the loop over [i]. *)
Definition repetition (dist : property) (sampleSize : Z) (standardizedMeans : list R)
  : M (list R) :=
  sum <- sample_sum dist (Z.to_nat sampleSize) 0 ;;
  let sampleMean := sum / IZR sampleSize in
  positive <- std_positive dist ;;
  match positive, dist with
  | true, Own d =>
      se <- divide (std d) (sqrt (IZR sampleSize)) ;;
      z <- divide (sampleMean - mean d) se ;;
      ret (standardizedMeans ++ [z])
  | _, _ => ret standardizedMeans
  end.

(** [for (let i = 0; i < numSimulations; i++) { ... }] with [count] iterations
    left. *)
Fixpoint repetitions (dist : property) (sampleSize : Z) (count : nat)
  (standardizedMeans : list R) : M (list R) :=
  match count with
  | O => ret standardizedMeans
  | S c =>
      l <- repetition dist sampleSize standardizedMeans ;;
      repetitions dist sampleSize c l
  end.

(** Step 1 of [createVisualization], for the value [dist] the lookup gave. *)
Definition run_simulation (dist : property) (sampleSize numSimulations : Z)
  : M (list R) :=
  if (sampleSize >? 0)%Z
  then repetitions dist sampleSize (Z.to_nat numSimulations) []
  else ret [].

End Simulation.

(** *** The empirical CDF of [createVisualization] *)

(** [{x: ..., y: ...}]; [x] is [None] where the source would store
    [undefined]. *)
Record point : Type := { x : option R; y : R }.

(** [for (let i = from; i < sortedMeans.length; i++) { push; push }] with
    [count] iterations left. *)
Fixpoint ecdf_loop (sortedMeans : list R) (i count : nat) (ecdfData : list point)
  : list point :=
  match count with
  | O => ecdfData
  | S c =>
      let len := INR (length sortedMeans) in
      ecdf_loop sortedMeans (S i) c
        (ecdfData
           ++ [ {| x := nth_error sortedMeans i; y := INR i / len |} ]
           ++ [ {| x := nth_error sortedMeans i; y := (INR i + 1) / len |} ])
  end.

Definition sortedMeans (standardizedMeans : list R) : list R :=
  D3.sort D3.ascending standardizedMeans.

Definition ecdfData (standardizedMeans : list R) : list point :=
  let sorted := sortedMeans standardizedMeans in
  if (0 <? length sorted)%nat
  then ecdf_loop sorted 0 (length sorted)
         [ {| x := nth_error sorted 0; y := 0 |} ]
  else [].

(** *** [createVisualization(options)], without the drawing *)

(** The destructured [options]; [None] is a missing property. *)
Record options : Type := {
  distName : option String.string;
  sampleSize : option Z;
  numSimulations : option Z
}.

(** What the function has computed when the drawing starts. *)
Record computed : Type := {
  standardizedMeans : list R;
  ecdf : list point
}.

Definition default {A : Type} (o : option A) (d : A) : A :=
  match o with Some a => a | None => d end.

Definition createVisualization (Math_random : nat -> R) (o : options) : M computed :=
  let distName := default (distName o) "Uniform"%string in
  let sampleSize := default (sampleSize o) 10%Z in
  let numSimulations := default (numSimulations o) 2000%Z in
  let dist := distributions distName in
  means <- run_simulation Math_random dist sampleSize numSimulations ;;
  ret {| standardizedMeans := means; ecdf := ecdfData means |}.

(** The upper end [Math.max(0.45, maxDensity * 1.15)] of the density axis
    [yScale1] of the histogram panel. *)
Definition yScale1_top (maxDensity : R) : R := Rmax 0.45 (maxDensity * 1.15).

End Clt.

(** ** The law of a sampler

    [Math.random()] is taken to be uniformly distributed on [[0, 1)].  The
    expectation of [g(Math.random())] is then the integral of [g] over the unit
    interval: the Riemann integral over [[0, b]] in the limit [b -> 1], since
    a sampler may be unbounded at 1 (the inverse transform [- ln (1 - u)]
    is). *)

Module Law.

Definition unit_integral (g : R -> R) (v : R) : Prop :=
  (forall b, 0 <= b < 1 -> inhabited (Riemann_integrable g 0 b)) /\
  (forall eps, 0 < eps ->
     exists delta, 0 < delta /\
       forall b (pr : Riemann_integrable g 0 b),
         1 - delta < b < 1 -> Rabs (RiemannInt pr - v) < eps).



End Law.

(** ** Binary64 evaluation

    The source expressions below, evaluated in IEEE 754 binary64 as a
    JavaScript engine evaluates them. *)

Module Binary64.

Import Floats.
Local Open Scope float_scope.
Local Set Warnings "-inexact-float".

(** [Math.exp], where its binary64 value is the same on every engine: 1 at
    [+0] and [-0], and [+0] below -746 (there [e^x] is less than [2^-1075],
    half the smallest positive binary64 number).  [None]: not modelled. *)
Definition Math_exp (x : float) : option float :=
  if x =? 0 then Some 1 else if x <? -746 then Some 0 else None.

(** [Math.ceil] for [0 <= x < 2^51]: adding and subtracting [2^52] rounds to
    the nearest integer. *)
Definition Math_ceil (x : float) : float :=
  let r := (x + 0x1p52) - 0x1p52 in
  if r <? x then r + 1 else r.

(** [Math.max] on two numbers. *)
Definition Math_max (a b : float) : float := if a <? b then b else a.

(** [while (++i < n) range[i] = start + i * step;] of [d3.range], entered
    with the counter at [i]; [None] when the fuel runs out. *)
Fixpoint range_loop (start step n i : float) (fuel : nat) : option (list float) :=
  if i <? n then
    match fuel with
    | O => None
    | S fuel' =>
        match range_loop start step n (i + 1) fuel' with
        | None => None
        | Some l => Some ((start + i * step) :: l)
        end
    end
  else Some [].

(** [d3.range(start, stop, step)] *)
Definition range (start stop step : float) : option (list float) :=
  let n := Math_max 0 (Math_ceil ((stop - start) / step)) in
  range_loop start step n 0 4096.

(** [function f(x, y)], with [Math.pow(d, 2)] as [d * d]. *)
Definition f (x y : float) : float :=
  let d := y - x * x in -10 * (d * d) - y * y.

Definition xgrid : option (list float) := range (-2) 2.05 0.05.

Definition dx : option float :=
  match xgrid with
  | Some (x0 :: x1 :: _) => Some (x1 - x0)
  | _ => None
  end.

Fixpoint map_opt {A B : Type} (g : A -> option B) (l : list A) : option (list B) :=
  match l with
  | [] => Some []
  | a :: l' =>
      match g a, map_opt g l' with
      | Some b, Some bs => Some (b :: bs)
      | _, _ => None
      end
  end.

(** The x half of [getConditionalDistributions]. *)
Definition conditional_x_given_y (y_value : float) : option (list float) :=
  match xgrid with
  | Some xs => map_opt (fun x => Math_exp (f x y_value)) xs
  | None => None
  end.

Definition sum_x (y_value : float) : option float :=
  match conditional_x_given_y y_value, dx with
  | Some c, Some d => Some (fold_left (fun a b => a + b) c 0 * d)
  | _, _ => None
  end.

Definition normalized_x_given_y (y_value : float) : option (list float) :=
  match conditional_x_given_y y_value, sum_x y_value with
  | Some c, Some s => Some (map (fun v => v / s) c)
  | _, _ => None
  end.

(** [normal.erf] and [normal.cdf] *)
Definition erf (x : float) : option float :=
  let sign := if 0 <=? x then 1 else -1 in
  let x := abs x in
  let a1 := 0.254829592 in
  let a2 := -0.284496736 in
  let a3 := 1.421413741 in
  let a4 := -1.453152027 in
  let a5 := 1.061405429 in
  let p := 0.3275911 in
  let t := 1.0 / (1.0 + p * x) in
  match Math_exp (- x * x) with
  | Some e =>
      let y := 1.0 - (((((a5 * t + a4) * t) + a3) * t + a2) * t + a1) * t * e in
      Some (sign * y)
  | None => None
  end.

Definition cdf (x : float) : option float :=
  match erf (x / sqrt 2) with
  | Some e => Some (0.5 * (1 + e))
  | None => None
  end.

End Binary64.

(** ** Notions the further properties are stated with *)

(** The total of the values of a list that are at least [t], and of those
    that exceed [t]. *)
Definition mass_at_or_above (t : R) (l : list R) : R :=
  Rsum (filter (fun v => if Rle_dec t v then true else false) l).
Definition mass_above (t : R) (l : list R) : R :=
  Rsum (filter (fun v => if Rlt_dec t v then true else false) l).

(** The mean of the [n] samples drawn from the calls [first], [first + 1], ...
    of [Math.random()], and the standardization of a sample mean. *)
Definition block_mean (Math_random : nat -> R) (d : Clt.Distribution) (n : Z)
  (first : nat) : R :=
  Rsum (map (fun j => Clt.random d (Math_random (first + j)%nat)) (seq 0 (Z.to_nat n)))
  / IZR n.
Definition z_score (d : Clt.Distribution) (n : Z) (sampleMean : R) : R :=
  (sampleMean - Clt.mean d) / (Clt.std d / sqrt (IZR n)).

(** * Properties *)

(** ** Sums and loops *)

Lemma Rsum_app (l1 l2 : list R) : Rsum (l1 ++ l2) = Rsum l1 + Rsum l2.
Proof.
  induction l1 as [|a l1 IH]; simpl; [lra | rewrite IH; lra].
Qed.

Lemma Rsum_rev (l : list R) : Rsum (rev l) = Rsum l.
Proof.
  induction l as [|a l IH]; simpl; [reflexivity|].
  rewrite Rsum_app, IH. simpl. lra.
Qed.

Lemma Rsum_concat (ll : list (list R)) : Rsum (concat ll) = Rsum (map Rsum ll).
Proof.
  induction ll as [|l ll IH]; simpl; [reflexivity|].
  now rewrite Rsum_app, IH.
Qed.

Lemma Rsum_scale {A : Type} (g : A -> R) (c : R) (l : list A) :
  Rsum (map (fun a => g a * c) l) = c * Rsum (map g l).
Proof.
  induction l as [|a l IH]; simpl; [lra | rewrite IH; lra].
Qed.

Lemma Rsum_plus {A : Type} (g1 g2 : A -> R) (l : list A) :
  Rsum (map (fun a => g1 a + g2 a) l) = Rsum (map g1 l) + Rsum (map g2 l).
Proof.
  induction l as [|a l IH]; simpl; [lra | rewrite IH; lra].
Qed.

(** Summing a rectangular table by columns or by rows gives the same total. *)
Lemma Rsum_exchange {A B : Type} (h : A -> B -> R) (xs : list A) (ys : list B) :
  Rsum (map (fun x => Rsum (map (fun y => h x y) ys)) xs)
  = Rsum (map (fun y => Rsum (map (fun x => h x y) xs)) ys).
Proof.
  induction xs as [|x xs IH]; simpl.
  - induction ys as [|y ys IH]; simpl; [reflexivity | rewrite <- IH; lra].
  - rewrite IH, Rsum_plus. reflexivity.
Qed.

Lemma Rsum_pos (l : list R) :
  l <> [] -> Forall (fun v => 0 < v) l -> 0 < Rsum l.
Proof.
  intros Hne Hall. destruct l as [|a l]; [congruence|]. clear Hne.
  revert a Hall. induction l as [|b l IH]; intros a Hall; simpl.
  - inversion Hall; subst. lra.
  - inversion Hall as [|? ? Ha Hl]; subst.
    specialize (IH b Hl). simpl in IH. lra.
Qed.

Lemma fold_left_add (l : list R) (s : R) :
  fold_left (fun a b => a + b) l s = s + Rsum l.
Proof.
  revert s. induction l as [|a l IH]; intros s; simpl; [lra | rewrite IH; lra].
Qed.

Lemma reduce_add_Rsum (l : list R) : reduce_add l = Rsum l.
Proof. unfold reduce_add. rewrite fold_left_add. lra. Qed.

Lemma sum_loop_some (get : nat -> option R) (g : nat -> R) (count from : nat) (s : R) :
  (forall k, (from <= k < from + count)%nat -> get k = Some (g k)) ->
  sum_loop get from count s = Some (s + Rsum (map g (seq from count))).
Proof.
  revert from s. induction count as [|c IH]; intros from s Hget; simpl.
  - f_equal. lra.
  - rewrite (Hget from) by lia.
    rewrite IH by (intros k Hk; apply Hget; lia).
    f_equal. lra.
Qed.

Lemma mapi_from_some {A B : Type} (g : A -> nat -> option B) (F : nat -> B)
  (l : list A) (i : nat) :
  (forall k a, (i <= k < i + length l)%nat -> g a k = Some (F k)) ->
  mapi_from g i l = Some (map F (seq i (length l))).
Proof.
  revert i. induction l as [|a l IH]; intros i Hg; simpl; [reflexivity|].
  rewrite (Hg i a) by (simpl; lia).
  rewrite IH by (intros k b Hk; apply Hg; simpl; lia).
  reflexivity.
Qed.

Lemma map_nth_seq {A B : Type} (G : A -> B) (l : list A) (d : A) :
  map (fun i => G (nth i l d)) (seq 0 (length l)) = map G l.
Proof.
  apply nth_ext with (d := G d) (d' := G d).
  - now rewrite !length_map, length_seq.
  - intros n Hn. rewrite length_map, length_seq in Hn.
    rewrite (map_nth G l d n).
    rewrite (nth_indep _ (G d) ((fun i => G (nth i l d)) 0%nat))
      by now rewrite length_map, length_seq.
    rewrite (map_nth (fun i => G (nth i l d)) (seq 0 (length l)) 0%nat n).
    now rewrite seq_nth.
Qed.

(** ** The grids *)

Lemma ceil_IZR (z : Z) : D3.ceil (IZR z) = z.
Proof.
  unfold D3.ceil.
  rewrite <- (Int_part_spec (- IZR z) (- z)); [lia|].
  rewrite opp_IZR. lra.
Qed.

Lemma range_spec (start stop step : R) (n : Z) :
  (stop - start) / step = IZR n ->
  D3.range start stop step
  = map (fun i => start + INR i * step) (seq 0 (Z.to_nat (Z.max 0 n))).
Proof.
  intros Hn. unfold D3.range. now rewrite Hn, ceil_IZR.
Qed.

Lemma xgrid_spec :
  Bivariate.xgrid = map (fun i => -2 + INR i * 0.05) (seq 0 81).
Proof.
  unfold Bivariate.xgrid. rewrite (range_spec _ _ _ 81) by lra. reflexivity.
Qed.

Lemma ygrid_spec :
  Bivariate.ygrid = map (fun i => -2 + INR i * 0.05) (seq 0 121).
Proof.
  unfold Bivariate.ygrid. rewrite (range_spec _ _ _ 121) by lra. reflexivity.
Qed.

Lemma xgrid_length : length Bivariate.xgrid = 81%nat.
Proof. rewrite xgrid_spec, length_map, length_seq. reflexivity. Qed.

Lemma ygrid_length : length Bivariate.ygrid = 121%nat.
Proof. rewrite ygrid_spec, length_map, length_seq. reflexivity. Qed.

Lemma grid_nth (n i : nat) :
  (i < n)%nat ->
  nth i (map (fun i => -2 + INR i * 0.05) (seq 0 n)) 0 = -2 + INR i * 0.05.
Proof.
  intros Hi.
  rewrite (nth_indep _ 0 ((fun i => -2 + INR i * 0.05) 0%nat))
    by now rewrite length_map, length_seq.
  rewrite (map_nth (fun i => -2 + INR i * 0.05)).
  now rewrite seq_nth.
Qed.

Lemma dx_value : Bivariate.dx = 0.05.
Proof.
  unfold Bivariate.dx. rewrite xgrid_spec, !grid_nth by lia. simpl. lra.
Qed.

Lemma dy_value : Bivariate.dy = 0.05.
Proof.
  unfold Bivariate.dy. rewrite ygrid_spec, !grid_nth by lia. simpl. lra.
Qed.

Lemma xgrid_nonempty : Bivariate.xgrid <> [].
Proof.
  intros H. apply (f_equal (@length R)) in H. rewrite xgrid_length in H. discriminate.
Qed.

Lemma ygrid_nonempty : Bivariate.ygrid <> [].
Proof.
  intros H. apply (f_equal (@length R)) in H. rewrite ygrid_length in H. discriminate.
Qed.

(** ** The joint table and its marginals, for any grid *)

Section Table.

Variable h : R -> R -> R.
Variables xs ys : list R.

Local Abbreviation table := (map (fun y => map (fun x => h x y) xs) (rev ys)).

Lemma table_row (r : nat) :
  (r < length ys)%nat ->
  nth_error table r = Some (map (fun x => h x (nth r (rev ys) 0)) xs).
Proof.
  intros Hr.
  rewrite nth_error_map.
  rewrite (nth_error_nth' (rev ys) 0) by now rewrite length_rev.
  reflexivity.
Qed.

Lemma table_row_ascending (r : nat) :
  (r < length ys)%nat ->
  nth_error table r = Some (map (fun x => h x (nth (length ys - 1 - r) ys 0)) xs).
Proof.
  intros Hr. rewrite table_row by assumption.
  rewrite rev_nth by assumption.
  now replace (length ys - S r)%nat with (length ys - 1 - r)%nat by lia.
Qed.

Lemma table_at2 (r c : nat) :
  (r < length ys)%nat -> (c < length xs)%nat ->
  at2 table r c = Some (h (nth c xs 0) (nth r (rev ys) 0)).
Proof.
  intros Hr Hc. unfold at2. rewrite table_row by assumption.
  rewrite nth_error_map, (nth_error_nth' xs 0) by assumption.
  reflexivity.
Qed.

Lemma column_sums (d : R) :
  mapi (fun _ i =>
          match sum_loop (fun j => at2 table j i) 0 (length ys) 0 with
          | None => None
          | Some sum => Some (sum * d)
          end) xs
  = Some (map (fun x => Rsum (map (fun y => h x y) (rev ys)) * d) xs).
Proof.
  unfold mapi.
  rewrite (mapi_from_some _
             (fun i => Rsum (map (fun y => h (nth i xs 0) y) (rev ys)) * d)).
  - f_equal.
    apply (map_nth_seq (fun x => Rsum (map (fun y => h x y) (rev ys)) * d)).
  - intros i _ Hi.
    rewrite (sum_loop_some _ (fun j => h (nth i xs 0) (nth j (rev ys) 0)))
      by (intros j Hj; apply table_at2; lia).
    rewrite <- (length_rev ys).
    rewrite (map_nth_seq (fun y => h (nth i xs 0) y)).
    do 2 f_equal. lra.
Qed.

Lemma row_sums (d : R) :
  mapi (fun _ j =>
          let z_row_index := (length ys - 1 - j)%nat in
          match sum_loop (fun i => at2 table z_row_index i) 0 (length xs) 0 with
          | None => None
          | Some sum => Some (sum * d)
          end) ys
  = Some (map (fun y => Rsum (map (fun x => h x y) xs) * d) ys).
Proof.
  unfold mapi.
  rewrite (mapi_from_some _
             (fun j => Rsum (map (fun x => h x (nth j ys 0)) xs) * d)).
  - f_equal.
    apply (map_nth_seq (fun y => Rsum (map (fun x => h x y) xs) * d)).
  - intros j _ Hj. cbv zeta.
    assert (Hrow : nth (length ys - 1 - j) (rev ys) 0 = nth j ys 0).
    { rewrite rev_nth by lia. f_equal. lia. }
    rewrite (sum_loop_some _ (fun i => h (nth i xs 0) (nth j ys 0))).
    + rewrite (map_nth_seq (fun x => h x (nth j ys 0))).
      do 2 f_equal. lra.
    + intros i Hi. rewrite table_at2 by lia. now rewrite Hrow.
Qed.

Lemma table_total :
  Rsum (concat table) = Rsum (map (fun y => Rsum (map (fun x => h x y) xs)) ys).
Proof.
  rewrite Rsum_concat, map_map.
  rewrite <- (Rsum_rev (map _ ys)), <- map_rev. reflexivity.
Qed.

End Table.

(** ** The marginals of the bivariate demo *)

Lemma marginal_x_value :
  Bivariate.marginal_x
  = Some (map (fun x => Rsum (map (fun y => exp (Bivariate.f x y)) (rev Bivariate.ygrid))
                        * Bivariate.dy) Bivariate.xgrid).
Proof.
  unfold Bivariate.marginal_x, Bivariate.Z.
  apply (column_sums (fun x y => exp (Bivariate.f x y))).
Qed.

Lemma marginal_y_value :
  Bivariate.marginal_y
  = Some (map (fun y => Rsum (map (fun x => exp (Bivariate.f x y)) Bivariate.xgrid)
                        * Bivariate.dx) Bivariate.ygrid).
Proof.
  unfold Bivariate.marginal_y, Bivariate.Z.
  apply (row_sums (fun x y => exp (Bivariate.f x y))).
Qed.

(** C2.  [marginal_y] is computed (no read of [Z] is out of range), has one
    entry per element of [ygrid], and its entry [j] is [dx] times the sum over
    the x grid of [exp (f x ygrid[j])]: the row of [Z] read for it, at index
    [ygrid.length - 1 - j], is the row of the ascending coordinate [ygrid[j]],
    [Z] holding the rows of the reversed grid (row [r] is the row of
    [ygrid[ygrid.length - 1 - r]], so y decreases along the rows). *)
Theorem marginal_y_matches_ascending_y :
  exists my,
    Bivariate.marginal_y = Some my /\
    length my = length Bivariate.ygrid /\
    forall j, (j < length Bivariate.ygrid)%nat ->
      let yj := nth j Bivariate.ygrid 0 in
      nth_error Bivariate.Z (length Bivariate.ygrid - 1 - j)
        = Some (map (fun x => exp (Bivariate.f x yj)) Bivariate.xgrid) /\
      nth_error Bivariate.Z j
        = Some (map (fun x => exp (Bivariate.f x
                  (nth (length Bivariate.ygrid - 1 - j) Bivariate.ygrid 0)))
                  Bivariate.xgrid) /\
      yj = -2 + INR j * 0.05 /\
      nth j my 0
        = Bivariate.dx * Rsum (map (fun x => exp (Bivariate.f x yj)) Bivariate.xgrid).
Proof.
  eexists. split; [apply marginal_y_value|].
  split; [now rewrite length_map|].
  intros j Hj yj. subst yj. repeat split.
  - unfold Bivariate.Z.
    rewrite (table_row_ascending (fun x y => exp (Bivariate.f x y))) by lia.
    now replace (length Bivariate.ygrid - 1 - (length Bivariate.ygrid - 1 - j))%nat
      with j by lia.
  - unfold Bivariate.Z.
    now rewrite (table_row_ascending (fun x y => exp (Bivariate.f x y))) by lia.
  - rewrite ygrid_length in Hj. rewrite ygrid_spec. now apply grid_nth.
  - set (G := fun y => Rsum (map (fun x => exp (Bivariate.f x y)) Bivariate.xgrid)
                      * Bivariate.dx).
    rewrite (nth_indep _ 0 (G 0)) by now rewrite length_map.
    rewrite (map_nth G). unfold G. lra.
Qed.

(** C7.  Both marginals are computed, and their Riemann sums
    [Σ marginal_x[i] * dx] and [Σ marginal_y[j] * dy] both equal
    [dx * dy] times the sum of all entries of [Z]. *)
Theorem marginals_carry_total_mass :
  exists mx my,
    Bivariate.marginal_x = Some mx /\
    Bivariate.marginal_y = Some my /\
    riemann_sum mx Bivariate.dx
      = Bivariate.dx * Bivariate.dy * Rsum (concat Bivariate.Z) /\
    riemann_sum my Bivariate.dy
      = Bivariate.dx * Bivariate.dy * Rsum (concat Bivariate.Z) /\
    riemann_sum mx Bivariate.dx = riemann_sum my Bivariate.dy.
Proof.
  do 2 eexists.
  split; [apply marginal_x_value|]. split; [apply marginal_y_value|].
  assert (Hx : riemann_sum
                 (map (fun x => Rsum (map (fun y => exp (Bivariate.f x y))
                                          (rev Bivariate.ygrid)) * Bivariate.dy)
                      Bivariate.xgrid) Bivariate.dx
               = Bivariate.dx * Bivariate.dy * Rsum (concat Bivariate.Z)).
  { unfold riemann_sum, Bivariate.Z.
    rewrite (table_total (fun x y => exp (Bivariate.f x y))).
    rewrite map_map, Rsum_scale, Rsum_scale.
    rewrite (Rsum_exchange (fun x y => exp (Bivariate.f x y))).
    rewrite <- (Rsum_rev (map _ Bivariate.ygrid)), <- map_rev. lra. }
  assert (Hy : riemann_sum
                 (map (fun y => Rsum (map (fun x => exp (Bivariate.f x y))
                                          Bivariate.xgrid) * Bivariate.dx)
                      Bivariate.ygrid) Bivariate.dy
               = Bivariate.dx * Bivariate.dy * Rsum (concat Bivariate.Z)).
  { unfold riemann_sum, Bivariate.Z.
    rewrite (table_total (fun x y => exp (Bivariate.f x y))).
    rewrite map_map, Rsum_scale, Rsum_scale. lra. }
  split; [exact Hx|]. split; [exact Hy|]. now rewrite Hx, Hy.
Qed.

(** ** The conditionals of the bivariate demo *)

Lemma exp_slice_positive (g : R -> R) (grid : list R) :
  Forall (fun v => 0 < v) (map (fun t => exp (g t)) grid).
Proof.
  apply Forall_forall. intros v Hv.
  apply in_map_iff in Hv. destruct Hv as [t [<- _]]. apply exp_pos.
Qed.

Lemma slice_mass_positive (g : R -> R) (grid : list R) (d : R) :
  grid <> [] -> 0 < d ->
  0 < reduce_add (map (fun t => exp (g t)) grid) * d.
Proof.
  intros Hne Hd. rewrite reduce_add_Rsum.
  apply Rmult_lt_0_compat; [|assumption].
  apply Rsum_pos; [|apply exp_slice_positive].
  destruct grid; [congruence | discriminate].
Qed.

Lemma Rsum_rescaled (l : list R) (s d : R) :
  s <> 0 -> Rsum (map (fun v => v / s * d) l) = Rsum l * d / s.
Proof.
  intros Hs. induction l as [|a l IH]; simpl.
  - now field.
  - rewrite IH. now field.
Qed.

(** A sampled curve divided by its own Riemann sum has Riemann sum 1. *)
Lemma normalized_riemann_sum (l : list R) (d : R) :
  reduce_add l * d <> 0 ->
  riemann_sum (map (fun v => v / (reduce_add l * d)) l) d = 1.
Proof.
  intros Hnz. unfold riemann_sum. rewrite map_map.
  rewrite Rsum_rescaled by assumption.
  rewrite reduce_add_Rsum in *. field.
  split; intros H0; apply Hnz; rewrite H0; lra.
Qed.

Lemma conditionals_normalized (x_value y_value : R) :
  let c := Bivariate.getConditionalDistributions x_value y_value in
  riemann_sum (Bivariate.x_given_y c) Bivariate.dx = 1 /\
  riemann_sum (Bivariate.y_given_x c) Bivariate.dy = 1.
Proof.
  simpl. unfold Bivariate.sum_x, Bivariate.sum_y. split.
  - apply normalized_riemann_sum. apply Rgt_not_eq.
    apply (slice_mass_positive (fun x => Bivariate.f x y_value));
      [apply xgrid_nonempty | rewrite dx_value; lra].
  - apply normalized_riemann_sum. apply Rgt_not_eq.
    apply (slice_mass_positive (fun y => Bivariate.f x_value y));
      [apply ygrid_nonempty | rewrite dy_value; lra].
Qed.

(** C3.  For a query point inside the grid bounds both vectors returned by
    [getConditionalDistributions] have Riemann sum 1:
    [Σ x_given_y[i] * dx = 1] and [Σ y_given_x[j] * dy = 1]. *)
Theorem conditionals_integrate_to_one (x0 y0 : R) :
  -2 <= x0 <= 2 -> -2 <= y0 <= 4 ->
  riemann_sum (Bivariate.x_given_y (Bivariate.getConditionalDistributions x0 y0))
              Bivariate.dx = 1 /\
  riemann_sum (Bivariate.y_given_x (Bivariate.getConditionalDistributions x0 y0))
              Bivariate.dy = 1.
Proof.
  intros _ _. apply conditionals_normalized.
Qed.

Lemma conditionals_integrate_to_one_witness :
  riemann_sum (Bivariate.x_given_y (Bivariate.getConditionalDistributions 0 0))
              Bivariate.dx = 1 /\
  riemann_sum (Bivariate.y_given_x (Bivariate.getConditionalDistributions 0 0))
              Bivariate.dy = 1.
Proof.
  apply (conditionals_integrate_to_one 0 0); lra.
Defined.

(** C10.  For every real query point, inside the grid bounds or not, every
    value [exp (f x y0)] and [exp (f x0 y)] the function evaluates is strictly
    positive, both normalizing sums [sum_x] and [sum_y] are strictly positive
    (so neither division divides by zero), each returned vector has one entry
    per grid point, and both returned vectors have Riemann sum 1. *)
Theorem conditionals_well_defined_everywhere (x0 y0 : R) :
  Forall (fun v => 0 < v) (Bivariate.conditional_x_given_y y0) /\
  Forall (fun v => 0 < v) (Bivariate.conditional_y_given_x x0) /\
  0 < Bivariate.sum_x y0 /\
  0 < Bivariate.sum_y x0 /\
  length (Bivariate.x_given_y (Bivariate.getConditionalDistributions x0 y0))
    = length Bivariate.xgrid /\
  length (Bivariate.y_given_x (Bivariate.getConditionalDistributions x0 y0))
    = length Bivariate.ygrid /\
  riemann_sum (Bivariate.x_given_y (Bivariate.getConditionalDistributions x0 y0))
              Bivariate.dx = 1 /\
  riemann_sum (Bivariate.y_given_x (Bivariate.getConditionalDistributions x0 y0))
              Bivariate.dy = 1.
Proof.
  split; [apply (exp_slice_positive (fun x => Bivariate.f x y0))|].
  split; [apply (exp_slice_positive (fun y => Bivariate.f x0 y))|].
  split.
  { apply (slice_mass_positive (fun x => Bivariate.f x y0));
      [apply xgrid_nonempty | rewrite dx_value; lra]. }
  split.
  { apply (slice_mass_positive (fun y => Bivariate.f x0 y));
      [apply ygrid_nonempty | rewrite dy_value; lra]. }
  split; [simpl; unfold Bivariate.conditional_x_given_y; now rewrite !length_map|].
  split; [simpl; unfold Bivariate.conditional_y_given_x; now rewrite !length_map|].
  apply conditionals_normalized.
Qed.

(** ** The simulation of the CLT demo *)

Section SimulationFacts.

Variable Math_random : nat -> R.

Lemma sample_sum_own (d : Clt.Distribution) (count : nat) (sum : R) (s : Clt.state) :
  exists total,
    Clt.sample_sum Math_random (Clt.Own d) count sum s
    = Clt.Ok total {| Clt.calls := (Clt.calls s + count)%nat;
                      Clt.divisions := Clt.divisions s |}.
Proof.
  revert sum s. induction count as [|c IH]; intros sum s; simpl.
  - exists sum. unfold Clt.ret. destruct s as [k dv]; simpl.
    now rewrite Nat.add_0_r.
  - unfold Clt.bind at 1. simpl.
    destruct (IH (sum + Clt.random d (Math_random (Clt.calls s)))
                 {| Clt.calls := S (Clt.calls s); Clt.divisions := Clt.divisions s |})
      as [total Ht].
    exists total. rewrite Ht. simpl. do 2 f_equal. lia.
Qed.

Lemma sample_sum_not_own (dist : Clt.property) (c : nat) (sum : R) (s : Clt.state) :
  (forall d, dist <> Clt.Own d) ->
  Clt.sample_sum Math_random dist (S c) sum s = Clt.Throw Clt.TypeError s.
Proof.
  intros Hd. simpl. unfold Clt.bind.
  destruct dist as [d| |]; [now elim (Hd d) | reflexivity | reflexivity].
Qed.

(** With a standard deviation that is not positive a repetition draws its
    sample and leaves both the output and the trace of divisions alone. *)
Lemma repetition_degenerate (d : Clt.Distribution) (sampleSize : Z)
  (l : list R) (s : Clt.state) :
  ~ 0 < Clt.std d ->
  Clt.repetition Math_random (Clt.Own d) sampleSize l s
  = Clt.Ok l {| Clt.calls := (Clt.calls s + Z.to_nat sampleSize)%nat;
                Clt.divisions := Clt.divisions s |}.
Proof.
  intros Hstd. unfold Clt.repetition. unfold Clt.bind at 1.
  destruct (sample_sum_own d (Z.to_nat sampleSize) 0 s) as [total ->].
  unfold Clt.bind, Clt.std_positive, Clt.ret.
  destruct (Rlt_dec 0 (Clt.std d)); [contradiction | reflexivity].
Qed.

Lemma repetitions_degenerate (d : Clt.Distribution) (sampleSize : Z) (count : nat)
  (l : list R) (s : Clt.state) :
  ~ 0 < Clt.std d ->
  Clt.repetitions Math_random (Clt.Own d) sampleSize count l s
  = Clt.Ok l {| Clt.calls := (Clt.calls s + count * Z.to_nat sampleSize)%nat;
                Clt.divisions := Clt.divisions s |}.
Proof.
  intros Hstd. revert s. induction count as [|c IH]; intros s; simpl.
  - unfold Clt.ret. destruct s; simpl. now rewrite Nat.add_0_r.
  - unfold Clt.bind. rewrite repetition_degenerate by assumption.
    rewrite IH. simpl. do 2 f_equal. lia.
Qed.

Lemma repetitions_not_own (dist : Clt.property) (sampleSize : Z) (c : nat)
  (l : list R) (s : Clt.state) :
  (forall d, dist <> Clt.Own d) -> (0 < sampleSize)%Z ->
  Clt.repetitions Math_random dist sampleSize (S c) l s = Clt.Throw Clt.TypeError s.
Proof.
  intros Hd Hn. simpl. unfold Clt.bind at 1. unfold Clt.repetition.
  unfold Clt.bind at 1.
  destruct (Z.to_nat sampleSize) as [|k] eqn:Hk; [lia|].
  now rewrite sample_sum_not_own.
Qed.

(** With a positive standard deviation and a positive sample size a
    repetition appends one standardized mean, and both divisions it evaluates
    have a positive divisor. *)
Lemma repetition_regular (d : Clt.Distribution) (sampleSize : Z)
  (l : list R) (s : Clt.state) :
  0 < Clt.std d -> (0 < sampleSize)%Z ->
  exists z a b,
    Clt.repetition Math_random (Clt.Own d) sampleSize l s
    = Clt.Ok (l ++ [z])
        {| Clt.calls := (Clt.calls s + Z.to_nat sampleSize)%nat;
           Clt.divisions := Clt.divisions s ++ [(Clt.std d, a); (b, Clt.std d / a)] |} /\
    0 < a /\ 0 < Clt.std d / a.
Proof.
  intros Hstd Hn. unfold Clt.repetition. unfold Clt.bind at 1.
  destruct (sample_sum_own d (Z.to_nat sampleSize) 0 s) as [total ->].
  unfold Clt.bind, Clt.std_positive, Clt.ret, Clt.divide. simpl.
  destruct (Rlt_dec 0 (Clt.std d)); [|contradiction].
  assert (Ha : 0 < sqrt (IZR sampleSize)).
  { apply sqrt_lt_R0. now apply IZR_lt. }
  do 3 eexists. split; [|split; [exact Ha | now apply Rdiv_lt_0_compat]].
  rewrite <- app_assoc. reflexivity.
Qed.

Lemma repetitions_regular (d : Clt.Distribution) (sampleSize : Z) (count : nat)
  (l : list R) (s : Clt.state) :
  0 < Clt.std d -> (0 < sampleSize)%Z ->
  exists zs s',
    Clt.repetitions Math_random (Clt.Own d) sampleSize count l s
    = Clt.Ok (l ++ zs) s' /\
    length zs = count /\
    exists ds, Clt.divisions s' = Clt.divisions s ++ ds /\
               Forall (fun division => 0 < snd division) ds.
Proof.
  intros Hstd Hn. revert l s. induction count as [|c IH]; intros l s; simpl.
  - exists [], s. rewrite app_nil_r. split; [reflexivity|]. split; [reflexivity|].
    exists []. now rewrite app_nil_r.
  - unfold Clt.bind.
    destruct (repetition_regular d sampleSize l s Hstd Hn)
      as [z [a [b [-> [Ha Hse]]]]].
    destruct (IH (l ++ [z])
                {| Clt.calls := (Clt.calls s + Z.to_nat sampleSize)%nat;
                   Clt.divisions :=
                     Clt.divisions s ++ [(Clt.std d, a); (b, Clt.std d / a)] |})
      as [zs [s' [-> [Hlen [ds [Hds Hall]]]]]].
    exists (z :: zs), s'. rewrite <- app_assoc. split; [reflexivity|].
    split; [simpl; now rewrite Hlen|].
    exists ([(Clt.std d, a); (b, Clt.std d / a)] ++ ds).
    split; [rewrite Hds; simpl; now rewrite <- app_assoc|].
    repeat constructor; assumption.
Qed.

End SimulationFacts.

Lemma unregistered_not_own (name : String.string) :
  ~ In name Clt.registered_names -> forall d, Clt.distributions name <> Clt.Own d.
Proof.
  intros Hname d. unfold Clt.distributions.
  destruct (String.eqb_spec name "Uniform") as [->|_]; [elim Hname; simpl; tauto|].
  destruct (String.eqb_spec name "Exponential") as [->|_]; [elim Hname; simpl; tauto|].
  destruct (String.eqb_spec name "Bernoulli") as [->|_]; [elim Hname; simpl; tauto|].
  destruct (String.eqb_spec name "Skewed Discrete") as [->|_];
    [elim Hname; simpl; tauto|].
  destruct (existsb _ _); discriminate.
Qed.

(** C5.  For an entry whose [std] is 0, whatever the sample size, the number
    of repetitions and the numbers [Math.random()] returns, the simulation
    returns an empty [standardizedMeans] and the standardization line evaluates
    no division: the trace of its divisions is as it was before the run. *)
Theorem zero_std_never_standardizes (Math_random : nat -> R) (d : Clt.Distribution)
  (sampleSize numSimulations : Z) (s : Clt.state) :
  Clt.std d = 0 ->
  exists s',
    Clt.run_simulation Math_random (Clt.Own d) sampleSize numSimulations s
    = Clt.Ok [] s' /\
    Clt.divisions s' = Clt.divisions s.
Proof.
  intros Hstd. unfold Clt.run_simulation.
  destruct (sampleSize >? 0)%Z.
  - rewrite repetitions_degenerate by lra. eexists. split; reflexivity.
  - exists s. split; reflexivity.
Qed.

Lemma zero_std_never_standardizes_witness :
  exists s',
    Clt.run_simulation (fun _ => 0.25)
      (Clt.Own {| Clt.mean := 3; Clt.std := 0; Clt.random := fun _ => 3 |})
      30 2000 Clt.initial
    = Clt.Ok [] s' /\
    Clt.divisions s' = Clt.divisions Clt.initial.
Proof.
  apply (zero_std_never_standardizes (fun _ => 0.25)
           {| Clt.mean := 3; Clt.std := 0; Clt.random := fun _ => 3 |}
           30 2000 Clt.initial).
  reflexivity.
Defined.

(** C6.  With [sampleSize = 0], for each of the four registered names, every
    repetition count (given or defaulted) and every behaviour of
    [Math.random()], [createVisualization] computes an empty
    [standardizedMeans] (and an empty ECDF) without calling [Math.random()]. *)
Theorem zero_sample_size_gives_no_means (Math_random : nat -> R)
  (name : String.string) (numSimulations : option Z) (s : Clt.state) :
  In name Clt.registered_names ->
  Clt.createVisualization Math_random
    {| Clt.distName := Some name;
       Clt.sampleSize := Some 0%Z;
       Clt.numSimulations := numSimulations |} s
  = Clt.Ok {| Clt.standardizedMeans := []; Clt.ecdf := [] |} s.
Proof.
  intros _. reflexivity.
Qed.

Lemma zero_sample_size_gives_no_means_witness :
  Clt.createVisualization (fun _ => 0.25)
    {| Clt.distName := Some "Skewed Discrete"%string;
       Clt.sampleSize := Some 0%Z;
       Clt.numSimulations := Some 2000%Z |} Clt.initial
  = Clt.Ok {| Clt.standardizedMeans := []; Clt.ecdf := [] |} Clt.initial.
Proof.
  apply (zero_sample_size_gives_no_means (fun _ => 0.25) "Skewed Discrete"%string
           (Some 2000%Z) Clt.initial).
  simpl. tauto.
Defined.

(** C9, as stated, fails: with [sampleSize = 0] the name is looked up but
    the value is never used, and an unregistered name returns normally. *)
Lemma unknown_name_returns_when_nothing_is_sampled :
  ~ In "Gaussian"%string Clt.registered_names /\
  Clt.createVisualization (fun _ => 0.25)
    {| Clt.distName := Some "Gaussian"%string;
       Clt.sampleSize := Some 0%Z;
       Clt.numSimulations := Some 2000%Z |} Clt.initial
  = Clt.Ok {| Clt.standardizedMeans := []; Clt.ecdf := [] |} Clt.initial.
Proof.
  split; [|reflexivity].
  simpl. intros [H|[H|[H|[H|[]]]]]; discriminate H.
Qed.

(** C9, amended.  For a name that is not one of the four registered ones,
    [createVisualization] throws a [TypeError] at the first [dist.random()],
    before any number is drawn, exactly when at least one sample is to be
    drawn ([sampleSize > 0] and [numSimulations > 0]); otherwise it returns
    with an empty [standardizedMeans]. *)
Theorem unknown_name_throws_when_sampling (Math_random : nat -> R)
  (name : String.string) (sampleSize numSimulations : Z) (s : Clt.state) :
  ~ In name Clt.registered_names ->
  Clt.createVisualization Math_random
    {| Clt.distName := Some name;
       Clt.sampleSize := Some sampleSize;
       Clt.numSimulations := Some numSimulations |} s
  = if ((sampleSize >? 0) && (numSimulations >? 0))%Z
    then Clt.Throw Clt.TypeError s
    else Clt.Ok {| Clt.standardizedMeans := []; Clt.ecdf := [] |} s.
Proof.
  intros Hname. pose proof (unregistered_not_own name Hname) as Hd.
  unfold Clt.createVisualization, Clt.default; simpl.
  unfold Clt.bind, Clt.run_simulation.
  destruct (sampleSize >? 0)%Z eqn:Hn; [|reflexivity].
  destruct (numSimulations >? 0)%Z eqn:Hm; simpl.
  - destruct (Z.to_nat numSimulations) as [|c] eqn:Hc; [lia|].
    rewrite repetitions_not_own by (assumption || lia). reflexivity.
  - replace (Z.to_nat numSimulations) with 0%nat by lia. reflexivity.
Qed.

Lemma unknown_name_throws_when_sampling_witness :
  Clt.createVisualization (fun _ => 0.25)
    {| Clt.distName := Some "Gaussian"%string;
       Clt.sampleSize := Some 10%Z;
       Clt.numSimulations := Some 2000%Z |} Clt.initial
  = Clt.Throw Clt.TypeError Clt.initial.
Proof.
  apply (unknown_name_throws_when_sampling (fun _ => 0.25) "Gaussian"%string
           10 2000 Clt.initial).
  simpl. intros [H|[H|[H|[H|[]]]]]; discriminate H.
Defined.

(** ** Sorting with [d3.ascending] *)

Lemma ascending_not_positive (a b : R) :
  (D3.ascending a b <=? 0)%Z = true <-> a <= b.
Proof.
  unfold D3.ascending.
  destruct (Rlt_dec a b) as [Hlt|Hge]; [split; [lra | reflexivity]|].
  destruct (Rgt_dec a b) as [Hgt|Hle]; simpl.
  - split; [discriminate | lra].
  - split; [lra | reflexivity].
Qed.

Lemma insert_perm (compare : R -> R -> Z) (a : R) (l : list R) :
  Permutation (D3.insert compare a l) (a :: l).
Proof.
  induction l as [|b l IH]; simpl; [reflexivity|].
  destruct (compare a b <=? 0)%Z; [reflexivity|].
  rewrite IH. apply perm_swap.
Qed.

Lemma sort_perm (compare : R -> R -> Z) (l : list R) :
  Permutation (D3.sort compare l) l.
Proof.
  induction l as [|a l IH]; simpl; [reflexivity|].
  rewrite insert_perm. now constructor.
Qed.

Lemma insert_sorted (a : R) (l : list R) :
  Sorted Rle l -> Sorted Rle (D3.insert D3.ascending a l).
Proof.
  induction l as [|b l IH]; intros Hs; simpl.
  - repeat constructor.
  - destruct (D3.ascending a b <=? 0)%Z eqn:Hab.
    + apply ascending_not_positive in Hab. constructor; [assumption|].
      now constructor.
    + assert (Hba : b <= a).
      { destruct (Rle_dec a b) as [Hle|Hn]; [|lra].
        apply ascending_not_positive in Hle. congruence. }
      inversion Hs as [|? ? Hs' Hhd]; subst.
      constructor; [now apply IH|].
      destruct l as [|c l]; simpl.
      * now constructor.
      * destruct (D3.ascending a c <=? 0)%Z; constructor;
          [assumption | now inversion Hhd].
Qed.

Lemma sort_sorted (l : list R) : StronglySorted Rle (D3.sort D3.ascending l).
Proof.
  apply Sorted_StronglySorted; [intros a b c; apply Rle_trans|].
  induction l as [|a l IH]; simpl; [constructor | now apply insert_sorted].
Qed.

(** ** The step sequence of the empirical CDF *)

Section Steps.

Variables (A : Type) (lo hi : nat -> A).

Local Abbreviation steps := (fun from count => flat_map (fun k => [lo k; hi k]) (seq from count)).

Lemma steps_length (from count : nat) : length (steps from count) = (2 * count)%nat.
Proof.
  revert from. induction count as [|c IH]; intros from; simpl; [reflexivity|].
  rewrite IH. lia.
Qed.

Lemma steps_nth (count from i : nat) :
  (i < count)%nat ->
  nth_error (steps from count) (2 * i) = Some (lo (from + i)%nat) /\
  nth_error (steps from count) (2 * i + 1) = Some (hi (from + i)%nat).
Proof.
  revert from i. induction count as [|c IH]; intros from i Hi; [lia|].
  destruct i as [|i].
  - simpl. rewrite Nat.add_0_r. split; reflexivity.
  - destruct (IH (S from) i) as [H1 H2]; [lia|].
    replace (2 * S i)%nat with (S (S (2 * i))) by lia.
    replace (from + S i)%nat with (S from + i)%nat by lia.
    simpl. simpl in H1, H2. split; [exact H1 | exact H2].
Qed.

End Steps.

Lemma ecdf_loop_steps (sorted : list R) (count i : nat) (acc : list Clt.point) :
  Clt.ecdf_loop sorted i count acc
  = acc ++ flat_map
             (fun k => [ {| Clt.x := nth_error sorted k;
                            Clt.y := INR k / INR (length sorted) |};
                         {| Clt.x := nth_error sorted k;
                            Clt.y := (INR k + 1) / INR (length sorted) |} ])
             (seq i count).
Proof.
  revert i acc. induction count as [|c IH]; intros i acc; simpl.
  - now rewrite app_nil_r.
  - rewrite IH. rewrite <- !app_assoc. reflexivity.
Qed.

Lemma step_heights_sorted (M : R) (count from : nat) :
  0 < M ->
  StronglySorted Rle
    (flat_map (fun k => [INR k / M; (INR k + 1) / M]) (seq from count)) /\
  Forall (fun v => INR from / M <= v)
    (flat_map (fun k => [INR k / M; (INR k + 1) / M]) (seq from count)).
Proof.
  intros HM. revert from. induction count as [|c IH]; intros from; simpl.
  - split; constructor.
  - destruct (IH (S from)) as [Hs Hall]. rewrite S_INR in Hall.
    assert (Hstep : INR from / M <= (INR from + 1) / M).
    { apply Rmult_le_compat_r; [left; now apply Rinv_0_lt_compat | lra]. }
    assert (Hall' : Forall (fun v => INR from / M <= v)
                      (flat_map (fun k => [INR k / M; (INR k + 1) / M])
                         (seq (S from) c))).
    { eapply Forall_impl; [|exact Hall]. intros v Hv. simpl in Hv. lra. }
    split.
    + constructor; [constructor; assumption|].
      constructor; assumption.
    + constructor; [lra|]. constructor; assumption.
Qed.

Lemma ecdfData_steps (l : list R) :
  l <> [] ->
  Clt.ecdfData l
  = {| Clt.x := nth_error (Clt.sortedMeans l) 0; Clt.y := 0 |}
    :: flat_map
         (fun k => [ {| Clt.x := nth_error (Clt.sortedMeans l) k;
                        Clt.y := INR k / INR (length l) |};
                     {| Clt.x := nth_error (Clt.sortedMeans l) k;
                        Clt.y := (INR k + 1) / INR (length l) |} ])
         (seq 0 (length l)).
Proof.
  intros Hne. unfold Clt.ecdfData.
  assert (Hlen : length (Clt.sortedMeans l) = length l).
  { apply Permutation_length, sort_perm. }
  destruct (0 <? length (Clt.sortedMeans l))%nat eqn:Hpos.
  - rewrite ecdf_loop_steps, Hlen. reflexivity.
  - apply Nat.ltb_ge in Hpos. destruct l; [congruence | simpl in Hlen; lia].
Qed.

Lemma ecdf_heights (l : list R) :
  l <> [] ->
  map Clt.y (Clt.ecdfData l)
  = 0 :: flat_map (fun k => [INR k / INR (length l); (INR k + 1) / INR (length l)])
           (seq 0 (length l)).
Proof.
  intros Hne. rewrite ecdfData_steps by assumption. simpl. f_equal.
  generalize (INR (length l)) as M. intros M.
  generalize (length l) as count, 0%nat as from.
  induction count as [|c IH]; intros from; simpl;
    [reflexivity | now rewrite IH].
Qed.

(** C4.  For a nonempty sequence of [m] standardized values, [sortedMeans] is
    the values in ascending order, and [ecdfData]
    - has [2 m + 1] points;
    - starts with the point (minimum value, 0);
    - ends with a point of height 1;
    - holds, for the [i]-th sorted value [s] (from 0), the point [(s, i / m)] at
      index [2 i + 1] and the point [(s, (i + 1) / m)] at index [2 i + 2];
    - has non-decreasing heights;
    - rises by [1 / m] from index [2 i + 1] to index [2 i + 2] and by nothing
      from index [2 i] to index [2 i + 1]: one rise of [1 / m] per value. *)
Theorem ecdf_step_sequence (l : list R) :
  l <> [] ->
  let m := length l in
  let sorted := Clt.sortedMeans l in
  let e := Clt.ecdfData l in
  let height := fun k => nth k (map Clt.y e) 0 in
  Permutation sorted l /\
  StronglySorted Rle sorted /\
  length e = (2 * m + 1)%nat /\
  (exists lowest, nth_error e 0 = Some {| Clt.x := Some lowest; Clt.y := 0 |} /\
                  In lowest l /\ Forall (fun v => lowest <= v) l) /\
  (exists highest, nth_error e (2 * m) = Some {| Clt.x := Some highest; Clt.y := 1 |}) /\
  (forall i, (i < m)%nat ->
     exists s, nth_error sorted i = Some s /\
       nth_error e (2 * i + 1) = Some {| Clt.x := Some s; Clt.y := INR i / INR m |} /\
       nth_error e (2 * i + 2)
         = Some {| Clt.x := Some s; Clt.y := (INR i + 1) / INR m |}) /\
  StronglySorted Rle (map Clt.y e) /\
  (forall i, (i < m)%nat ->
     height (2 * i + 1)%nat - height (2 * i)%nat = 0 /\
     height (2 * i + 2)%nat - height (2 * i + 1)%nat = 1 / INR m).
Proof.
  intros Hne m sorted e height.
  assert (Hperm : Permutation sorted l) by apply sort_perm.
  assert (Hsorted : StronglySorted Rle sorted) by apply sort_sorted.
  assert (Hlen : length sorted = m) by now apply Permutation_length.
  assert (Hm : (0 < m)%nat).
  { subst m. destruct l; [congruence | simpl; lia]. }
  assert (HM : 0 < INR m) by now apply lt_0_INR.
  assert (He : e = {| Clt.x := nth_error sorted 0; Clt.y := 0 |}
                   :: flat_map
                        (fun k => [ {| Clt.x := nth_error sorted k;
                                       Clt.y := INR k / INR m |};
                                    {| Clt.x := nth_error sorted k;
                                       Clt.y := (INR k + 1) / INR m |} ])
                        (seq 0 m))
    by now apply ecdfData_steps.
  assert (Hpoints : forall i, (i < m)%nat ->
     exists s, nth_error sorted i = Some s /\
       nth_error e (2 * i + 1) = Some {| Clt.x := Some s; Clt.y := INR i / INR m |} /\
       nth_error e (2 * i + 2)
         = Some {| Clt.x := Some s; Clt.y := (INR i + 1) / INR m |}).
  { intros i Hi.
    destruct (nth_error sorted i) as [s|] eqn:Hs;
      [|apply nth_error_None in Hs; lia].
    exists s. split; [reflexivity|].
    destruct (steps_nth _
                (fun k => {| Clt.x := nth_error sorted k; Clt.y := INR k / INR m |})
                (fun k => {| Clt.x := nth_error sorted k;
                             Clt.y := (INR k + 1) / INR m |})
                m 0 i Hi) as [H1 H2].
    simpl (0 + i)%nat in H1, H2. rewrite Hs in H1, H2.
    rewrite He.
    replace (2 * i + 1)%nat with (S (2 * i)) by lia.
    replace (2 * i + 2)%nat with (S (2 * i + 1)) by lia.
    split; [exact H1 | exact H2]. }
  assert (Hheights : map Clt.y e
                     = 0 :: flat_map (fun k => [INR k / INR m; (INR k + 1) / INR m])
                              (seq 0 m))
    by now apply ecdf_heights.
  assert (Hheight : forall i, (i < m)%nat ->
            height (2 * i + 1)%nat = INR i / INR m /\
            height (2 * i + 2)%nat = (INR i + 1) / INR m).
  { intros i Hi. destruct (Hpoints i Hi) as [s [_ [H1 H2]]].
    unfold height. split.
    - apply (map_nth_error Clt.y) in H1.
      now rewrite (nth_error_nth _ _ 0 H1).
    - apply (map_nth_error Clt.y) in H2.
      now rewrite (nth_error_nth _ _ 0 H2). }
  repeat split.
  - exact Hperm.
  - exact Hsorted.
  - rewrite He. simpl. rewrite steps_length. lia.
  - destruct sorted as [|lowest rest] eqn:Hsrt; [simpl in Hlen; lia|].
    exists lowest. split; [rewrite He; reflexivity|]. split.
    + apply (Permutation_in _ Hperm). now left.
    + apply Forall_forall. intros v Hv.
      apply (Permutation_in _ (Permutation_sym Hperm)) in Hv.
      inversion Hsorted as [|? ? _ Hall]; subst.
      destruct Hv as [<-|Hv]; [lra|].
      rewrite Forall_forall in Hall. now apply Hall.
  - destruct (Hpoints (m - 1)%nat) as [s [_ [_ H2]]]; [lia|].
    exists s. replace (2 * m)%nat with (2 * (m - 1) + 2)%nat by lia.
    rewrite H2. do 2 f_equal.
    rewrite minus_INR by lia. simpl. now field; apply Rgt_not_eq.
  - exact Hpoints.
  - rewrite Hheights.
    destruct (step_heights_sorted (INR m) m 0 HM) as [Hs Hall].
    constructor; [exact Hs|].
    eapply Forall_impl; [|exact Hall]. intros v Hv. simpl in Hv. lra.
  - destruct (Hheight i H) as [H1 _]. rewrite H1.
    destruct i as [|i].
    + unfold height. rewrite Hheights. simpl. lra.
    + destruct (Hheight i) as [_ H2]; [lia|].
      replace (2 * S i)%nat with (2 * i + 2)%nat by lia.
      rewrite H2, S_INR. lra.
  - destruct (Hheight i H) as [H1 H2]. rewrite H1, H2. now field; apply Rgt_not_eq.
Qed.

Lemma ecdf_step_sequence_witness :
  length (Clt.ecdfData [0.5; -1; 2]) = 7%nat /\
  StronglySorted Rle (map Clt.y (Clt.ecdfData [0.5; -1; 2])).
Proof.
  assert (Hne : [0.5; -1; 2] <> []) by discriminate.
  pose proof (ecdf_step_sequence [0.5; -1; 2] Hne) as H. cbv zeta in H.
  destruct H as [_ [_ [Hlen [_ [_ [_ [Hs _]]]]]]].
  split; [exact Hlen | exact Hs].
Defined.

(** ** The normal overlay of the CLT demo *)

Lemma erf_at_zero : Clt.normal.erf 0 = 1 / 1000000000.
Proof.
  unfold Clt.normal.erf.
  destruct (Rge_dec 0 0) as [_|Hn]; [|exfalso; apply Hn; right; reflexivity].
  rewrite Rabs_R0.
  replace (- 0 * 0) with 0 by ring. rewrite exp_0. cbv zeta.
  rewrite Rmult_0_r, Rplus_0_r.
  replace (1.0 / 1.0) with 1 by lra. lra.
Qed.

Lemma cdf_at_zero : Clt.normal.cdf 0 = 0.5 + 5 / 10000000000.
Proof.
  unfold Clt.normal.cdf.
  replace (0 / sqrt 2) with 0 by (unfold Rdiv; ring).
  rewrite erf_at_zero. lra.
Qed.

(** C8, as stated, fails: the five coefficients add up to 0.999999999, so the
    approximation is not 0 at 0, and the CDF built on it is not 0.5 at 0. *)
Lemma erf_of_zero_is_not_zero :
  Clt.normal.erf 0 <> 0 /\ Clt.normal.cdf 0 <> 0.5.
Proof.
  rewrite erf_at_zero, cdf_at_zero. split; lra.
Qed.

(** C8, amended.  [erf(0)] is [1e-9], which is within the approximation's
    error bound [1.5e-7] of the true value 0, and [cdf(0)] is
    [0.5 * (1 + erf(0)) = 0.5000000005]. *)
Theorem erf_of_zero_within_error_bound :
  Clt.normal.erf 0 = 1 / 1000000000 /\
  Rabs (Clt.normal.erf 0 - 0) <= 1.5 / 10000000 /\
  Clt.normal.cdf 0 = 0.5 * (1 + Clt.normal.erf 0) /\
  Clt.normal.cdf 0 = 0.5000000005.
Proof.
  split; [apply erf_at_zero|]. split.
  - rewrite erf_at_zero. rewrite Rabs_pos_eq; lra.
  - split; [|rewrite cdf_at_zero; lra].
    unfold Clt.normal.cdf. now replace (0 / sqrt 2) with 0 by (unfold Rdiv; ring).
Qed.

(** ** Integrals over the unit interval and the moments of the samplers *)






Lemma unit_integral_unique (g : R -> R) (v1 v2 : R) :
  Law.unit_integral g v1 -> Law.unit_integral g v2 -> v1 = v2.
Proof.
  intros [Hint H1] [_ H2].
  destruct (Req_dec v1 v2) as [|Hne]; [assumption|exfalso].
  set (eps := Rabs (v1 - v2) / 2).
  assert (Heps : 0 < eps).
  { unfold eps. pose proof (Rabs_pos_lt (v1 - v2)). lra. }
  destruct (H1 eps Heps) as [d1 [Hd1 HI1]].
  destruct (H2 eps Heps) as [d2 [Hd2 HI2]].
  set (b := 1 - Rmin (Rmin d1 d2) 1 / 2).
  assert (Hm : 0 < Rmin (Rmin d1 d2) 1 <= 1).
  { split; [repeat apply Rmin_glb_lt; lra | apply Rmin_r]. }
  assert (Hm1 : Rmin (Rmin d1 d2) 1 <= d1).
  { eapply Rle_trans; [apply Rmin_l | apply Rmin_l]. }
  assert (Hm2 : Rmin (Rmin d1 d2) 1 <= d2).
  { eapply Rle_trans; [apply Rmin_l | apply Rmin_r]. }
  destruct (Hint b) as [pr]; [unfold b; lra|].
  specialize (HI1 b pr). specialize (HI2 b pr).
  assert (Hb1 : 1 - d1 < b < 1) by (unfold b; lra).
  assert (Hb2 : 1 - d2 < b < 1) by (unfold b; lra).
  specialize (HI1 Hb1). specialize (HI2 Hb2).
  assert (Htri : Rabs (v1 - v2) <= Rabs (RiemannInt pr - v1) + Rabs (RiemannInt pr - v2)).
  { replace (v1 - v2) with ((RiemannInt pr - v2) - (RiemannInt pr - v1)) by ring.
    eapply Rle_trans; [apply Rabs_triang|]. rewrite Rabs_Ropp. lra. }
  unfold eps in *. lra.
Qed.







(** *** The logarithm near 0 *)





(** *** The inverse-transform sampler [- ln (1 - u)] *)







(** *** The four registered samplers *)





Lemma skewed_declared :
  Clt.skewed_mean = 1.2 /\ Clt.skewed_mean_sq = 10.2 /\ Clt.skewed_var = 8.76.
Proof.
  unfold Clt.skewed_var, Clt.skewed_mean_sq, Clt.skewed_mean,
    Clt.skewed_p1, Clt.skewed_p2.
  repeat split; lra.
Qed.


(** ** Binary64 *)

Module Binary64Facts.

Import Floats.
Local Set Warnings "-inexact-float".

(** In binary64 too the approximation is not 0 at 0. *)
Lemma binary64_erf_of_zero :
  Binary64.erf 0%float = Some 9.9999997171806854e-10%float /\
  Binary64.cdf 0%float = Some 0.50000000050000004%float.
Proof. split; vm_compute; reflexivity. Qed.

Lemma binary64_xgrid_length :
  option_map (@length _) Binary64.xgrid = Some 81%nat.
Proof. vm_compute. reflexivity. Qed.

(** C10, as stated, fails in binary64: at the finite query point (0, 20)
    every [f(x, 20)] on the x grid is at most -2960, every
    [Math.exp(f(x, 20))] is 0 rather than strictly positive, [sum_x] is 0, and
    each of the 81 entries of [x_given_y] is [0 / 0 = NaN]. *)
Lemma far_query_point_divides_zero_by_zero :
  Binary64.conditional_x_given_y 20%float = Some (repeat 0%float 81) /\
  Binary64.sum_x 20%float = Some 0%float /\
  Binary64.normalized_x_given_y 20%float = Some (repeat nan 81).
Proof. repeat split; vm_compute; reflexivity. Qed.

End Binary64Facts.

(** ** Runs on small inputs *)

Example sort_three : D3.sort D3.ascending [2; 1; 3] = [1; 2; 3].
Proof.
  assert (H23 : (D3.ascending 2 3 <=? 0)%Z = true)
    by (apply ascending_not_positive; lra).
  assert (H13 : (D3.ascending 1 3 <=? 0)%Z = true)
    by (apply ascending_not_positive; lra).
  assert (H21 : (D3.ascending 2 1 <=? 0)%Z = false).
  { destruct (D3.ascending 2 1 <=? 0)%Z eqn:H; [|reflexivity].
    apply ascending_not_positive in H. lra. }
  simpl. rewrite H13. simpl. now rewrite H21, H23.
Qed.

Example ecdf_of_two :
  Clt.ecdfData [2; 1]
  = [ {| Clt.x := Some 1; Clt.y := 0 |};
      {| Clt.x := Some 1; Clt.y := 0 / 2 |};
      {| Clt.x := Some 1; Clt.y := (0 + 1) / 2 |};
      {| Clt.x := Some 2; Clt.y := 1 / 2 |};
      {| Clt.x := Some 2; Clt.y := (1 + 1) / 2 |} ].
Proof.
  unfold Clt.ecdfData, Clt.sortedMeans.
  assert (H21 : (D3.ascending 2 1 <=? 0)%Z = false).
  { destruct (D3.ascending 2 1 <=? 0)%Z eqn:H; [|reflexivity].
    apply ascending_not_positive in H. lra. }
  simpl. rewrite H21. simpl. reflexivity.
Qed.

(** One repetition of one Bernoulli draw, [Math.random()] returning 0.25: the
    sample is 1, and the standardized mean is [(1 - 0.5) / (0.5 / 1) = 1]. *)
Example bernoulli_single_draw :
  exists z s',
    Clt.run_simulation (fun _ => 0.25) (Clt.Own Clt.Bernoulli) 1 1 Clt.initial
    = Clt.Ok [z] s' /\
    z = 1 /\ Clt.calls s' = 1%nat /\
    map snd (Clt.divisions s') = [1; 0.5].
Proof.
  unfold Clt.run_simulation. simpl.
  unfold Clt.bind, Clt.repetition, Clt.bind, Clt.sample_sum, Clt.bind,
    Clt.call_random, Clt.std_positive, Clt.ret, Clt.divide. simpl.
  destruct (Rlt_dec 0.25 0.5) as [_|Hn]; [|exfalso; lra].
  destruct (Rlt_dec 0 0.5) as [_|Hn]; [|exfalso; lra].
  do 2 eexists. split; [reflexivity|]. simpl.
  rewrite sqrt_1. split; [lra|]. split; [reflexivity|].
  repeat f_equal; lra.
Qed.

(** * Further properties of the code *)

(** ** The density and its table *)

Lemma density_range (x y : R) : 0 < exp (Bivariate.f x y) <= 1.
Proof.
  split; [apply exp_pos|].
  assert (Hf : Bivariate.f x y = - (10 * ((y - x * x) * (y - x * x)) + y * y)).
  { unfold Bivariate.f. simpl. ring. }
  assert (H1 : 0 <= (y - x * x) * (y - x * x)) by apply Rle_0_sqr.
  assert (H2 : 0 <= y * y) by apply Rle_0_sqr.
  rewrite <- exp_0.
  destruct (Req_dec (Bivariate.f x y) 0) as [->|Hne]; [right; reflexivity|].
  left. apply exp_increasing. lra.
Qed.



Lemma INR_80 : INR 80 = 80.
Proof. now rewrite INR_IZR_INZ. Qed.

Lemma INR_120 : INR 120 = 120.
Proof. now rewrite INR_IZR_INZ. Qed.

Lemma nth_grid_in (n : nat) (v : R) :
  In v (map (fun i => -2 + INR i * 0.05) (seq 0 n)) ->
  exists i, (i < n)%nat /\ v = -2 + INR i * 0.05.
Proof.
  intros Hin. apply in_map_iff in Hin. destruct Hin as [i [<- Hi]].
  apply in_seq in Hi. exists i. split; [lia | reflexivity].
Qed.

(** X2.  The grids are evenly spaced by [dx = dy = 0.05], start at -2 and
    reach their upper bounds exactly: [xgrid] has 81 points from -2 to 2,
    [ygrid] has 121 points from -2 to 4, and no point lies outside. *)
Theorem grids_cover_their_ranges :
  length Bivariate.xgrid = 81%nat /\ length Bivariate.ygrid = 121%nat /\
  Bivariate.dx = 0.05 /\ Bivariate.dy = 0.05 /\
  (forall i, (i < 81)%nat -> nth i Bivariate.xgrid 0 = -2 + INR i * Bivariate.dx) /\
  (forall j, (j < 121)%nat -> nth j Bivariate.ygrid 0 = -2 + INR j * Bivariate.dy) /\
  nth 0 Bivariate.xgrid 0 = -2 /\ nth 80 Bivariate.xgrid 0 = 2 /\
  nth 0 Bivariate.ygrid 0 = -2 /\ nth 120 Bivariate.ygrid 0 = 4 /\
  Forall (fun x => -2 <= x <= 2) Bivariate.xgrid /\
  Forall (fun y => -2 <= y <= 4) Bivariate.ygrid.
Proof.
  rewrite dx_value, dy_value.
  split; [apply xgrid_length|]. split; [apply ygrid_length|].
  split; [reflexivity|]. split; [reflexivity|].
  split; [intros i Hi; rewrite xgrid_spec; now apply grid_nth|].
  split; [intros j Hj; rewrite ygrid_spec; now apply grid_nth|].
  split; [rewrite xgrid_spec, grid_nth by lia; simpl; lra|].
  split; [rewrite xgrid_spec, grid_nth by lia; rewrite INR_80; lra|].
  split; [rewrite ygrid_spec, grid_nth by lia; simpl; lra|].
  split; [rewrite ygrid_spec, grid_nth by lia; rewrite INR_120; lra|].
  split; apply Forall_forall; intros v Hv.
  - rewrite xgrid_spec in Hv. apply nth_grid_in in Hv. destruct Hv as [i [Hi ->]].
    assert (H0 : 0 <= INR i) by apply pos_INR.
    assert (H1 : INR i <= 80).
    { rewrite <- INR_80. apply le_INR. lia. }
    lra.
  - rewrite ygrid_spec in Hv. apply nth_grid_in in Hv. destruct Hv as [i [Hi ->]].
    assert (H0 : 0 <= INR i) by apply pos_INR.
    assert (H1 : INR i <= 120).
    { rewrite <- INR_120. apply le_INR. lia. }
    lra.
Qed.

Lemma length_concat_rect {A : Type} (M : list (list A)) (n : nat) :
  Forall (fun row => length row = n) M -> length (concat M) = (length M * n)%nat.
Proof.
  induction 1 as [|row M Hrow _ IH]; simpl; [reflexivity|].
  rewrite length_app, IH, Hrow. reflexivity.
Qed.

Lemma Z_rows : Forall (fun row => length row = 81%nat) Bivariate.Z.
Proof.
  apply Forall_forall. intros row Hrow. unfold Bivariate.Z in Hrow.
  apply in_map_iff in Hrow. destruct Hrow as [y [<- _]].
  rewrite length_map. apply xgrid_length.
Qed.

Lemma Z_length : length Bivariate.Z = 121%nat.
Proof. unfold Bivariate.Z. rewrite length_map, length_rev. apply ygrid_length. Qed.

Lemma z_flat_values (v : R) :
  In v Bivariate.z_flat ->
  exists x y, In x Bivariate.xgrid /\ In y Bivariate.ygrid /\
              v = exp (Bivariate.f x y).
Proof.
  unfold Bivariate.z_flat, Bivariate.Z. intros Hv.
  apply in_concat in Hv. destruct Hv as [row [Hrow Hv]].
  apply in_map_iff in Hrow. destruct Hrow as [y [<- Hy]].
  apply in_map_iff in Hv. destruct Hv as [x [<- Hx]].
  exists x, y. rewrite <- in_rev in Hy. now repeat split.
Qed.

Lemma z_flat_range : Forall (fun v => 0 < v <= 1) Bivariate.z_flat.
Proof.
  apply Forall_forall. intros v Hv.
  destruct (z_flat_values v Hv) as [x [y [_ [_ ->]]]]. apply density_range.
Qed.

Lemma Z_entry (r c : nat) :
  (r < 121)%nat -> (c < 81)%nat ->
  at2 Bivariate.Z r c
  = Some (exp (Bivariate.f (nth c Bivariate.xgrid 0) (nth (120 - r) Bivariate.ygrid 0))).
Proof.
  intros Hr Hc. unfold Bivariate.Z.
  rewrite (table_at2 (fun x y => exp (Bivariate.f x y)))
    by (rewrite ?ygrid_length, ?xgrid_length; assumption).
  rewrite rev_nth by (rewrite ygrid_length; assumption).
  rewrite ygrid_length. do 3 f_equal.
Qed.

(** X3.  The joint table [Z] is rectangular, one row of 81 values for each
    of the 121 y grid points, so [Z.flat()] has [xgrid.length * ygrid.length]
    = 81 * 121 = 9801 values, the size given to the contour generator; row [r] holds the
    density along [y = ygrid[120 - r]], and every value lies in (0, 1]. *)
Theorem joint_table_shape :
  length Bivariate.Z = length Bivariate.ygrid /\
  Forall (fun row => length row = length Bivariate.xgrid) Bivariate.Z /\
  length Bivariate.z_flat = (length Bivariate.xgrid * length Bivariate.ygrid)%nat /\
  length Bivariate.z_flat = (81 * 121)%nat /\
  (forall r c, (r < 121)%nat -> (c < 81)%nat ->
     at2 Bivariate.Z r c
     = Some (exp (Bivariate.f (nth c Bivariate.xgrid 0)
                              (nth (120 - r) Bivariate.ygrid 0)))) /\
  Forall (fun v => 0 < v <= 1) Bivariate.z_flat.
Proof.
  rewrite xgrid_length, ygrid_length.
  split; [apply Z_length|]. split; [apply Z_rows|].
  assert (Hflat : length Bivariate.z_flat = (81 * 121)%nat).
  { unfold Bivariate.z_flat. rewrite (length_concat_rect _ 81 Z_rows), Z_length.
    reflexivity. }
  split; [exact Hflat|]. split; [exact Hflat|].
  split; [exact Z_entry | exact z_flat_range].
Qed.

Lemma Rsum_exp_pos (g : R -> R) (grid : list R) :
  grid <> [] -> 0 < Rsum (map (fun t => exp (g t)) grid).
Proof.
  intros Hne. apply Rsum_pos; [|apply exp_slice_positive].
  destruct grid; [congruence | discriminate].
Qed.


(** X4.  [marginal_x] is computed (no read of [Z] is out of range) and has one
    entry per x grid point; entry [i] is [dy] times the sum over the y grid of
    [exp (f xgrid[i] y)], whatever the order of the rows of [Z], and is
    strictly positive.  The entries of [marginal_y] are strictly positive
    too. *)
Theorem marginal_x_sums_columns :
  exists mx my,
    Bivariate.marginal_x = Some mx /\ Bivariate.marginal_y = Some my /\
    length mx = length Bivariate.xgrid /\
    (forall i, (i < length Bivariate.xgrid)%nat ->
       nth i mx 0
       = Bivariate.dy * Rsum (map (fun y => exp (Bivariate.f (nth i Bivariate.xgrid 0) y))
                                  Bivariate.ygrid)) /\
    Forall (fun v => 0 < v) mx /\ Forall (fun v => 0 < v) my.
Proof.
  do 2 eexists.
  split; [apply marginal_x_value|]. split; [apply marginal_y_value|].
  split; [now rewrite length_map|].
  split.
  - intros i Hi.
    set (G := fun x => Rsum (map (fun y => exp (Bivariate.f x y)) (rev Bivariate.ygrid))
                       * Bivariate.dy).
    rewrite (nth_indep _ 0 (G 0)) by now rewrite length_map.
    rewrite (map_nth G). unfold G.
    rewrite map_rev, Rsum_rev. ring.
  - split; apply Forall_forall; intros v Hv; apply in_map_iff in Hv;
      destruct Hv as [t [<- _]].
    + apply Rmult_lt_0_compat; [|rewrite dy_value; lra].
      apply (Rsum_exp_pos (fun y => Bivariate.f t y)).
      intros H. apply (f_equal (@rev R)) in H. rewrite rev_involutive in H.
      now apply ygrid_nonempty.
    + apply Rmult_lt_0_compat; [|rewrite dx_value; lra].
      apply (Rsum_exp_pos (fun x => Bivariate.f x t)). apply xgrid_nonempty.
Qed.



(** ** Extremes of a list *)

Lemma max_loop (l : list R) (m0 : R) :
  exists m,
    fold_left (fun max value =>
                 match max with
                 | None => Some value
                 | Some m => if Rlt_dec m value then Some value else Some m
                 end) l (Some m0) = Some m /\
    (m = m0 \/ In m l) /\ m0 <= m /\ Forall (fun v => v <= m) l.
Proof.
  revert m0. induction l as [|a l IH]; intros m0; simpl.
  - exists m0. repeat split; [now left | lra | constructor].
  - destruct (Rlt_dec m0 a) as [Hlt|Hge].
    + destruct (IH a) as [m [Hm [Hin [Hle Hall]]]].
      exists m. split; [exact Hm|].
      split; [destruct Hin as [->|Hin]; right; [now left | now right]|].
      split; [lra|]. now constructor.
    + destruct (IH m0) as [m [Hm [Hin [Hle Hall]]]].
      exists m. split; [exact Hm|].
      split; [destruct Hin as [->|Hin]; [now left | right; now right]|].
      split; [lra|]. constructor; [lra | assumption].
Qed.

Lemma min_loop (l : list R) (m0 : R) :
  exists m,
    fold_left (fun min value =>
                 match min with
                 | None => Some value
                 | Some m => if Rgt_dec m value then Some value else Some m
                 end) l (Some m0) = Some m /\
    (m = m0 \/ In m l) /\ m <= m0 /\ Forall (fun v => m <= v) l.
Proof.
  revert m0. induction l as [|a l IH]; intros m0; simpl.
  - exists m0. repeat split; [now left | lra | constructor].
  - destruct (Rgt_dec m0 a) as [Hgt|Hle].
    + destruct (IH a) as [m [Hm [Hin [Hle Hall]]]].
      exists m. split; [exact Hm|].
      split; [destruct Hin as [->|Hin]; right; [now left | now right]|].
      split; [lra|]. now constructor.
    + destruct (IH m0) as [m [Hm [Hin [Hle' Hall]]]].
      exists m. split; [exact Hm|].
      split; [destruct Hin as [->|Hin]; [now left | right; now right]|].
      split; [lra|]. constructor; [lra | assumption].
Qed.

Lemma max_spec (l : list R) :
  l <> [] ->
  exists m, D3.max l = Some m /\ In m l /\ Forall (fun v => v <= m) l.
Proof.
  destruct l as [|a l]; [congruence|]. intros _.
  unfold D3.max. simpl.
  destruct (max_loop l a) as [m [Hm [Hin [Hle Hall]]]].
  exists m. split; [exact Hm|]. split.
  - destruct Hin as [->|Hin]; [now left | now right].
  - now constructor.
Qed.

Lemma min_spec (l : list R) :
  l <> [] ->
  exists m, D3.min l = Some m /\ In m l /\ Forall (fun v => m <= v) l.
Proof.
  destruct l as [|a l]; [congruence|]. intros _.
  unfold D3.min. simpl.
  destruct (min_loop l a) as [m [Hm [Hin [Hle Hall]]]].
  exists m. split; [exact Hm|]. split.
  - destruct Hin as [->|Hin]; [now left | now right].
  - now constructor.
Qed.

Lemma at2_in_concat (M : list (list R)) (r c : nat) (v : R) :
  at2 M r c = Some v -> In v (concat M).
Proof.
  unfold at2. destruct (nth_error M r) as [row|] eqn:Hrow; [|discriminate].
  intros Hv. apply in_concat. exists row.
  split; [eapply nth_error_In; eassumption | eapply nth_error_In; eassumption].
Qed.

Lemma z_flat_nonempty : Bivariate.z_flat <> [].
Proof.
  intros H. pose proof (at2_in_concat _ _ _ _ (Z_entry 0 0 ltac:(lia) ltac:(lia))) as Hin.
  fold Bivariate.z_flat in Hin. rewrite H in Hin. destruct Hin.
Qed.

Lemma INR_40 : INR 40 = 40.
Proof. now rewrite INR_IZR_INZ. Qed.

Lemma one_in_z_flat : In 1 Bivariate.z_flat.
Proof.
  pose proof (Z_entry 80 40 ltac:(lia) ltac:(lia)) as H.
  replace (nth 40 Bivariate.xgrid 0) with 0 in H
    by (rewrite xgrid_spec, grid_nth by lia; rewrite INR_40; lra).
  replace (nth (120 - 80) Bivariate.ygrid 0) with 0 in H
    by (rewrite ygrid_spec, grid_nth by lia; simpl (120 - 80)%nat;
        rewrite INR_40; lra).
  replace (Bivariate.f 0 0) with 0 in H by (unfold Bivariate.f; simpl; ring).
  rewrite exp_0 in H. exact (at2_in_concat _ _ _ _ H).
Qed.

Lemma below_one_in_z_flat : exists v, In v Bivariate.z_flat /\ v < 1.
Proof.
  pose proof (Z_entry 0 0 ltac:(lia) ltac:(lia)) as H.
  eexists. split; [exact (at2_in_concat _ _ _ _ H)|].
  rewrite <- exp_0. apply exp_increasing.
  rewrite xgrid_spec, ygrid_spec, !grid_nth by lia.
  simpl (120 - 0)%nat. rewrite INR_120. simpl INR.
  unfold Bivariate.f. simpl. nra.
Qed.

Lemma levels_spec :
  D3.range 0 Bivariate.nLevels 1 = map (fun i => 0 + INR i * 1) (seq 0 20).
Proof.
  unfold Bivariate.nLevels. rewrite (range_spec _ _ _ 20) by lra. reflexivity.
Qed.

(** X6.  The contour levels: the smallest value [minZ] of the table is
    positive and below the largest, [maxZ], which is exactly 1 (the density at
    the grid point (0, 0)); the 20 thresholds start at [minZ], end at [maxZ],
    and rise by the same positive amount [(maxZ - minZ) / 19] from one to the
    next. *)
Theorem contour_levels :
  exists lo ts,
    Bivariate.minZ = Some lo /\ Bivariate.maxZ = Some 1 /\
    0 < lo < 1 /\
    Forall (fun v => lo <= v <= 1) Bivariate.z_flat /\
    Bivariate.thresholds = Some ts /\
    length ts = 20%nat /\
    nth 0 ts 0 = lo /\ nth 19 ts 0 = 1 /\
    forall i, (i < 19)%nat ->
      nth (S i) ts 0 - nth i ts 0 = (1 - lo) / 19 /\ nth i ts 0 < nth (S i) ts 0.
Proof.
  destruct (min_spec _ z_flat_nonempty) as [lo [Hmin [Hlo_in Hlo_all]]].
  destruct (max_spec _ z_flat_nonempty) as [hi [Hmax [Hhi_in Hhi_all]]].
  pose proof z_flat_range as Hrange. rewrite Forall_forall in Hrange, Hlo_all, Hhi_all.
  assert (Hhi : hi = 1).
  { pose proof (Hrange hi Hhi_in). pose proof (Hhi_all 1 one_in_z_flat). lra. }
  subst hi.
  assert (Hlo : 0 < lo < 1).
  { destruct below_one_in_z_flat as [v [Hv Hv1]].
    pose proof (Hrange lo Hlo_in). pose proof (Hlo_all v Hv). lra. }
  exists lo. eexists.
  split; [exact Hmin|]. split; [exact Hmax|]. split; [exact Hlo|].
  split.
  { apply Forall_forall. intros v Hv.
    pose proof (Hlo_all v Hv). pose proof (Hhi_all v Hv). lra. }
  split.
  { unfold Bivariate.thresholds, Bivariate.minZ, Bivariate.maxZ.
    rewrite Hmin, Hmax, levels_spec, map_map. reflexivity. }
  assert (Hnth : forall i, (i < 20)%nat ->
            nth i (map (fun i => lo + (1 - lo) * (0 + INR i * 1) / (Bivariate.nLevels - 1))
                       (seq 0 20)) 0
            = lo + (1 - lo) * INR i / 19).
  { intros i Hi.
    rewrite (nth_indep _ 0 ((fun i => lo + (1 - lo) * (0 + INR i * 1)
                                       / (Bivariate.nLevels - 1)) 0%nat))
      by now rewrite length_map, length_seq.
    rewrite (map_nth (fun i => lo + (1 - lo) * (0 + INR i * 1)
                               / (Bivariate.nLevels - 1))).
    rewrite seq_nth by assumption. unfold Bivariate.nLevels. simpl (0 + i)%nat.
    lra. }
  split; [now rewrite length_map, length_seq|].
  split; [rewrite Hnth by lia; simpl; lra|].
  split.
  { rewrite Hnth by lia. replace (INR 19) with 19 by now rewrite INR_IZR_INZ. lra. }
  intros i Hi. rewrite !Hnth by lia. rewrite S_INR. lra.
Qed.

(** ** The conditional curves *)

Lemma x_given_y_nth (x_value y_value : R) (i : nat) :
  (i < 81)%nat ->
  nth i (Bivariate.x_given_y (Bivariate.getConditionalDistributions x_value y_value)) 0
  = exp (Bivariate.f (nth i Bivariate.xgrid 0) y_value) / Bivariate.sum_x y_value.
Proof.
  intros Hi.
  change (Bivariate.x_given_y (Bivariate.getConditionalDistributions x_value y_value))
    with (map (fun v => v / Bivariate.sum_x y_value)
            (Bivariate.conditional_x_given_y y_value)).
  unfold Bivariate.conditional_x_given_y. rewrite map_map.
  set (G := fun x => exp (Bivariate.f x y_value) / Bivariate.sum_x y_value).
  rewrite (nth_indep _ 0 (G 0)) by (rewrite length_map, xgrid_length; lia).
  now rewrite (map_nth G).
Qed.

Lemma y_given_x_nth (x_value y_value : R) (j : nat) :
  (j < 121)%nat ->
  nth j (Bivariate.y_given_x (Bivariate.getConditionalDistributions x_value y_value)) 0
  = exp (Bivariate.f x_value (nth j Bivariate.ygrid 0)) / Bivariate.sum_y x_value.
Proof.
  intros Hj.
  change (Bivariate.y_given_x (Bivariate.getConditionalDistributions x_value y_value))
    with (map (fun v => v / Bivariate.sum_y x_value)
            (Bivariate.conditional_y_given_x x_value)).
  unfold Bivariate.conditional_y_given_x. rewrite map_map.
  set (G := fun y => exp (Bivariate.f x_value y) / Bivariate.sum_y x_value).
  rewrite (nth_indep _ 0 (G 0)) by (rewrite length_map, ygrid_length; lia).
  now rewrite (map_nth G).
Qed.









(** X19.  At a query point of the grid the conditionals are the joint table
    divided by the marginals: for [x_value = xgrid[i]] and
    [y_value = ygrid[j]], with [z] the entry of [Z] for that point (row
    [120 - j], column [i]), [x_given_y[i] = z / marginal_y[j]] and
    [y_given_x[j] = z / marginal_x[i]]. *)
Theorem conditional_is_joint_over_marginal (i j : nat) :
  (i < 81)%nat -> (j < 121)%nat ->
  let c := Bivariate.getConditionalDistributions
             (nth i Bivariate.xgrid 0) (nth j Bivariate.ygrid 0) in
  exists mx my z,
    Bivariate.marginal_x = Some mx /\ Bivariate.marginal_y = Some my /\
    at2 Bivariate.Z (120 - j) i = Some z /\
    nth i (Bivariate.x_given_y c) 0 = z / nth j my 0 /\
    nth j (Bivariate.y_given_x c) 0 = z / nth i mx 0.
Proof.
  intros Hi Hj c. subst c. do 3 eexists.
  split; [apply marginal_x_value|]. split; [apply marginal_y_value|].
  split; [apply Z_entry; lia|].
  replace (120 - (120 - j))%nat with j by lia.
  split.
  - rewrite x_given_y_nth by assumption. f_equal.
    set (G := fun y => Rsum (map (fun x => exp (Bivariate.f x y)) Bivariate.xgrid)
                       * Bivariate.dx).
    rewrite (nth_indep (map G Bivariate.ygrid) 0 (G 0))
      by (rewrite length_map, ygrid_length; lia).
    rewrite (map_nth G). unfold G, Bivariate.sum_x, Bivariate.conditional_x_given_y.
    now rewrite reduce_add_Rsum.
  - rewrite y_given_x_nth by assumption. f_equal.
    set (G := fun x => Rsum (map (fun y => exp (Bivariate.f x y)) (rev Bivariate.ygrid))
                       * Bivariate.dy).
    rewrite (nth_indep (map G Bivariate.xgrid) 0 (G 0))
      by (rewrite length_map, xgrid_length; lia).
    rewrite (map_nth G). unfold G, Bivariate.sum_y, Bivariate.conditional_y_given_x.
    now rewrite reduce_add_Rsum, map_rev, Rsum_rev.
Qed.

Lemma conditional_is_joint_over_marginal_witness :
  exists mx my z,
    Bivariate.marginal_x = Some mx /\ Bivariate.marginal_y = Some my /\
    at2 Bivariate.Z (120 - 40) 40 = Some z /\
    nth 40 (Bivariate.x_given_y
              (Bivariate.getConditionalDistributions
                 (nth 40 Bivariate.xgrid 0) (nth 40 Bivariate.ygrid 0))) 0
      = z / nth 40 my 0 /\
    nth 40 (Bivariate.y_given_x
              (Bivariate.getConditionalDistributions
                 (nth 40 Bivariate.xgrid 0) (nth 40 Bivariate.ygrid 0))) 0
      = z / nth 40 mx 0.
Proof.
  apply (conditional_is_joint_over_marginal 40 40); lia.
Defined.

(** ** The highest-density-region threshold *)

Lemma descending_not_positive (a b : R) :
  (D3.descending a b <=? 0)%Z = true <-> b <= a.
Proof.
  unfold D3.descending.
  destruct (Rlt_dec b a) as [Hlt|Hge]; [split; [lra | reflexivity]|].
  destruct (Rgt_dec b a) as [Hgt|Hle]; simpl.
  - split; [discriminate | lra].
  - split; [lra | reflexivity].
Qed.

Lemma insert_sorted_descending (a : R) (l : list R) :
  Sorted Rge l -> Sorted Rge (D3.insert D3.descending a l).
Proof.
  induction l as [|b l IH]; intros Hs; simpl.
  - repeat constructor.
  - destruct (D3.descending a b <=? 0)%Z eqn:Hab.
    + apply descending_not_positive in Hab. constructor; [assumption|].
      constructor. lra.
    + assert (Hba : b >= a).
      { destruct (Rle_dec b a) as [Hle|Hn]; [|lra].
        apply descending_not_positive in Hle. congruence. }
      inversion Hs as [|? ? Hs' Hhd]; subst.
      constructor; [now apply IH|].
      destruct l as [|c l]; simpl.
      * now constructor.
      * destruct (D3.descending a c <=? 0)%Z; constructor;
          [assumption | now inversion Hhd].
Qed.

Lemma sort_sorted_descending (l : list R) :
  StronglySorted Rge (D3.sort D3.descending l).
Proof.
  apply Sorted_StronglySorted; [intros a b c; apply Rge_trans|].
  induction l as [|a l IH]; simpl; [constructor | now apply insert_sorted_descending].
Qed.

Lemma Rsum_perm (l l' : list R) : Permutation l l' -> Rsum l = Rsum l'.
Proof.
  induction 1; simpl; lra.
Qed.

Lemma filter_perm (keep : R -> bool) (l l' : list R) :
  Permutation l l' -> Permutation (filter keep l) (filter keep l').
Proof.
  induction 1 as [|a l l' _ IH|a b l|l l' l'' _ IH1 _ IH2]; simpl.
  - constructor.
  - destruct (keep a); [now constructor | assumption].
  - destruct (keep a), (keep b); try reflexivity. apply perm_swap.
  - now transitivity (filter keep l').
Qed.

Lemma Rsum_filter_le (keep : R -> bool) (l : list R) :
  Forall (fun v => 0 < v) l -> 0 <= Rsum (filter keep l) <= Rsum l.
Proof.
  induction 1 as [|a l Ha _ IH]; simpl; [lra|].
  destruct (keep a); simpl; lra.
Qed.

Lemma filter_all (keep : R -> bool) (l : list R) :
  Forall (fun v => keep v = true) l -> filter keep l = l.
Proof.
  induction 1 as [|a l Ha _ IH]; simpl; [reflexivity|]. now rewrite Ha, IH.
Qed.

Lemma filter_none (keep : R -> bool) (l : list R) :
  Forall (fun v => keep v = false) l -> filter keep l = [].
Proof.
  induction 1 as [|a l Ha _ IH]; simpl; [reflexivity|]. now rewrite Ha, IH.
Qed.

(** The loop stops at the first value with which the running total reaches
    99% of [total]. *)
Lemma hdr_loop_stops (values : list R) (total c h : R) :
  0 < total ->
  c < 0.99 * total ->
  0.99 * total <= c + Rsum values ->
  exists pre t post,
    values = pre ++ t :: post /\
    Bivariate.hdr_loop values total c h = (c + Rsum pre + t, t) /\
    c + Rsum pre < 0.99 * total /\
    0.99 * total <= c + Rsum pre + t.
Proof.
  intros Htotal. revert c. induction values as [|z rest IH]; intros c Hc Hsum.
  - simpl in Hsum. lra.
  - simpl. destruct (Rge_dec ((c + z) / total) 0.99) as [Hge|Hlt].
    + exists [], z, rest. simpl.
      assert (0.99 * total <= c + z).
      { apply Rge_le in Hge. apply (Rmult_le_compat_r total) in Hge; [|lra].
        replace ((c + z) / total * total) with (c + z) in Hge by (field; lra). lra. }
      repeat split; [f_equal; lra | lra | lra].
    + assert (Hc' : c + z < 0.99 * total).
      { apply Rnot_ge_lt in Hlt. apply (Rmult_lt_compat_r total) in Hlt; [|lra].
        replace ((c + z) / total * total) with (c + z) in Hlt by (field; lra). lra. }
      destruct (IH (c + z) Hc') as [pre [t [post [-> [Hloop [Hpre Ht]]]]]].
      { simpl in Hsum. lra. }
      exists (z :: pre), t, post. simpl.
      repeat split; [rewrite Hloop; f_equal; lra | lra | lra].
Qed.

Lemma hdr_level (l : list R) :
  l <> [] -> Forall (fun v => 0 < v) l ->
  let total := reduce_add l in
  let t := snd (Bivariate.hdr_loop (D3.sort D3.descending l) total 0 0) in
  0 < total /\ In t l /\
  0.99 * total <= mass_at_or_above t l /\
  mass_above t l < 0.99 * total.
Proof.
  intros Hne Hpos total t.
  assert (Hperm : Permutation (D3.sort D3.descending l) l) by apply sort_perm.
  assert (Htotal : total = Rsum (D3.sort D3.descending l)).
  { unfold total. rewrite reduce_add_Rsum. symmetry. now apply Rsum_perm. }
  assert (Hpos_total : 0 < total).
  { unfold total. rewrite reduce_add_Rsum. now apply Rsum_pos. }
  destruct (hdr_loop_stops (D3.sort D3.descending l) total 0 0 Hpos_total)
    as [pre [t' [post [Hsplit [Hloop [Hpre Ht]]]]]]; [lra | lra |].
  assert (Et : t = t') by (unfold t; now rewrite Hloop). clearbody t. subst t'.
  pose proof (sort_sorted_descending l) as Hsorted. rewrite Hsplit in Hsorted, Hperm.
  assert (Hpos' : Forall (fun v => 0 < v) (pre ++ t :: post)).
  { rewrite Forall_forall in *. intros v Hv. apply Hpos.
    now apply (Permutation_in _ Hperm). }
  apply Forall_app in Hpos'. destruct Hpos' as [Hpos_pre Hpos_tpost].
  inversion Hpos_tpost as [|? ? Hpos_t Hpos_post]; subst.
  assert (Hpre_ge : Forall (fun v => t <= v) pre).
  { clear - Hsorted. induction pre as [|a pre IH]; [constructor|].
    simpl in Hsorted. inversion Hsorted as [|? ? Hs Hall]; subst.
    constructor; [|now apply IH].
    rewrite Forall_forall in Hall. apply Rge_le, Hall, in_elt. }
  assert (Hpost_le : Forall (fun v => v <= t) post).
  { clear - Hsorted. induction pre as [|a pre IH].
    - simpl in Hsorted. inversion Hsorted as [|? ? _ Hall]; subst.
      eapply Forall_impl; [|exact Hall]. intros v Hv. now apply Rge_le.
    - simpl in Hsorted. inversion Hsorted; subst. now apply IH. }
  split; [exact Hpos_total|]. split.
  { apply (Permutation_in _ Hperm), in_elt. }
  split.
  - unfold mass_at_or_above.
    rewrite <- (Rsum_perm _ _ (filter_perm _ _ _ Hperm)).
    rewrite filter_app. simpl.
    destruct (Rle_dec t t) as [_|Hn]; [|exfalso; lra].
    rewrite (filter_all _ pre).
    + rewrite Rsum_app. simpl.
      pose proof (Rsum_filter_le (fun v => if Rle_dec t v then true else false)
                    post Hpos_post). lra.
    + eapply Forall_impl; [|exact Hpre_ge]. intros v Hv. simpl in Hv.
      now destruct (Rle_dec t v).
  - unfold mass_above.
    rewrite <- (Rsum_perm _ _ (filter_perm _ _ _ Hperm)).
    rewrite filter_app. simpl.
    destruct (Rlt_dec t t) as [Hn|_]; [exfalso; lra|].
    rewrite (filter_none _ post).
    + rewrite Rsum_app. simpl.
      pose proof (Rsum_filter_le (fun v => if Rlt_dec t v then true else false)
                    pre Hpos_pre). lra.
    + eapply Forall_impl; [|exact Hpost_le]. intros v Hv. simpl in Hv.
      destruct (Rlt_dec t v); [lra | reflexivity].
Qed.

(** X9.  The threshold of the highest-density region: [hdr_threshold] is one
    of the values of the table (so it is positive), the values at or above
    it carry at least 99% of [total_mass], and the values strictly above it
    carry less than 99%.  The condition [hdr_threshold > 0 & false] that
    guards the drawing is false for every threshold: the contour is never
    drawn. *)
Theorem hdr_threshold_is_the_99_percent_level :
  0 < Bivariate.total_mass /\
  In Bivariate.hdr_threshold Bivariate.z_flat /\
  0 < Bivariate.hdr_threshold <= 1 /\
  0.99 * Bivariate.total_mass
    <= mass_at_or_above Bivariate.hdr_threshold Bivariate.z_flat /\
  mass_above Bivariate.hdr_threshold Bivariate.z_flat < 0.99 * Bivariate.total_mass /\
  forall threshold, Bivariate.draws_hdr_contour threshold = false.
Proof.
  assert (Hpos : Forall (fun v => 0 < v) Bivariate.z_flat).
  { eapply Forall_impl; [|exact z_flat_range]. intros v Hv. simpl in Hv. lra. }
  destruct (hdr_level Bivariate.z_flat z_flat_nonempty Hpos)
    as [Htotal [Hin [Hcover Hminimal]]].
  split; [exact Htotal|]. split; [exact Hin|]. split.
  { pose proof z_flat_range as Hr. rewrite Forall_forall in Hr. now apply Hr. }
  split; [exact Hcover|]. split; [exact Hminimal|].
  intros threshold. unfold Bivariate.draws_hdr_contour.
  destruct (Rgt_dec threshold 0); reflexivity.
Qed.

(** ** The normal overlay *)

(** The part of [erf] that does not depend on the sign of its argument. *)
Lemma erf_abs (x : R) :
  Clt.normal.erf x
  = (if Rge_dec x 0 then 1 else -1)
    * (1 - (((((1.061405429 * (1 / (1 + 0.3275911 * Rabs x)) + -1.453152027)
               * (1 / (1 + 0.3275911 * Rabs x)) + 1.421413741)
              * (1 / (1 + 0.3275911 * Rabs x)) + -0.284496736)
             * (1 / (1 + 0.3275911 * Rabs x)) + 0.254829592)
            * (1 / (1 + 0.3275911 * Rabs x)) * exp (- Rabs x * Rabs x))).
Proof.
  unfold Clt.normal.erf. cbv zeta.
  replace 1.0 with 1 by lra. reflexivity.
Qed.

(** X10.  Away from 0 the approximation is exactly odd, [erf(-x) = - erf(x)],
    and the CDF built on it satisfies [cdf(-x) = 1 - cdf(x)]. *)
Theorem erf_is_odd_away_from_zero (x : R) :
  x <> 0 ->
  Clt.normal.erf (- x) = - Clt.normal.erf x /\
  Clt.normal.cdf (- x) = 1 - Clt.normal.cdf x.
Proof.
  assert (Hodd : forall z, z <> 0 -> Clt.normal.erf (- z) = - Clt.normal.erf z).
  { intros z Hz. rewrite !erf_abs, Rabs_Ropp.
    destruct (Rge_dec z 0) as [Hge|Hlt]; destruct (Rge_dec (- z) 0) as [Hge'|Hlt'];
      try lra. }
  intros Hx. split; [now apply Hodd|].
  unfold Clt.normal.cdf.
  assert (Hs : 0 < sqrt 2) by (apply sqrt_lt_R0; lra).
  replace (- x / sqrt 2) with (- (x / sqrt 2)) by (unfold Rdiv; ring).
  rewrite Hodd; [lra|].
  intros H0. apply Hx.
  apply (Rmult_eq_reg_r (/ sqrt 2)); [|apply Rinv_neq_0_compat; lra].
  unfold Rdiv in H0. rewrite H0. ring.
Qed.

Lemma erf_is_odd_away_from_zero_witness :
  Clt.normal.erf (- 1) = - Clt.normal.erf 1 /\
  Clt.normal.cdf (- 1) = 1 - Clt.normal.cdf 1.
Proof.
  apply (erf_is_odd_away_from_zero 1). lra.
Defined.

(** The polynomial of the approximation, [P t = ((((a5 t + a4) t + a3) t + a2) t + a1) t],
    stays strictly between 0 and 1 on (0, 1]. *)
Lemma erf_polynomial_range (t : R) :
  0 < t <= 1 ->
  0 < ((((1.061405429 * t + -1.453152027) * t + 1.421413741) * t + -0.284496736) * t
       + 0.254829592) * t < 1.
Proof.
  intros [Ht0 Ht1].
  assert (H2 : 0 < t * t) by now apply Rmult_lt_0_compat.
  assert (H3 : 0 < t * t * t) by now apply Rmult_lt_0_compat.
  assert (H4 : 0 < t * t * t * t) by now apply Rmult_lt_0_compat.
  assert (H32 : t * t * t <= t * t).
  { rewrite <- (Rmult_1_r (t * t)) at 2. apply Rmult_le_compat_l; lra. }
  (* 1.061405429 (t - 0.6845)^2 >= 0, times t^2 *)
  assert (Hq : 0 <= (t - 0.6845) * (t - 0.6845)) by apply Rle_0_sqr.
  assert (Hq2 : 0 <= t * t * ((t - 0.6845) * (t - 0.6845)))
    by (apply Rmult_le_pos; lra).
  assert (Hr : 0 <= (t - 0.1546) * (t - 0.1546)) by apply Rle_0_sqr.
  split.
  - apply Rmult_lt_0_compat; [|assumption].
    (* poly t >= 0.2548 - 0.2845 t + 0.92 t^2 > 0 *)
    nra.
  - (* 1 - P t = 1e-9 + (1 - t) S t with S t > 0 *)
    assert (HS : 0 < 0.999999999 + 0.745170407 * t + 1.029667143 * (t * t)
                     + -0.391746598 * (t * t * t) + 1.061405429 * (t * t * t * t))
      by lra.
    assert (Hprod : 0 <= (1 - t) * (0.999999999 + 0.745170407 * t + 1.029667143 * (t * t)
                     + -0.391746598 * (t * t * t) + 1.061405429 * (t * t * t * t)))
      by (apply Rmult_le_pos; lra).
    lra.
Qed.

Lemma erf_magnitude (x : R) :
  exists y, 0 < y < 1 /\
            Clt.normal.erf x = (if Rge_dec x 0 then 1 else -1) * y.
Proof.
  rewrite erf_abs.
  set (t := 1 / (1 + 0.3275911 * Rabs x)).
  assert (HX : 0 <= Rabs x) by apply Rabs_pos.
  assert (Hden : 1 <= 1 + 0.3275911 * Rabs x) by nra.
  assert (Ht : 0 < t <= 1).
  { unfold t. split.
    - apply Rdiv_lt_0_compat; lra.
    - apply Rmult_le_reg_r with (1 + 0.3275911 * Rabs x); [lra|].
      replace (1 / (1 + 0.3275911 * Rabs x) * (1 + 0.3275911 * Rabs x)) with 1
        by (field; lra).
      lra. }
  pose proof (erf_polynomial_range t Ht) as HP.
  set (P := ((((1.061405429 * t + -1.453152027) * t + 1.421413741) * t
              + -0.284496736) * t + 0.254829592) * t) in *.
  assert (HE : 0 < exp (- Rabs x * Rabs x) <= 1).
  { split; [apply exp_pos|]. rewrite <- exp_0.
    destruct (Req_dec (Rabs x) 0) as [->|Hne].
    - right. f_equal. ring.
    - left. apply exp_increasing. nra. }
  exists (1 - P * exp (- Rabs x * Rabs x)). split; [|reflexivity].
  assert (0 < P * exp (- Rabs x * Rabs x)) by (apply Rmult_lt_0_compat; lra).
  assert (P * exp (- Rabs x * Rabs x) <= P * 1)
    by (apply Rmult_le_compat_l; lra).
  lra.
Qed.

(** X11.  The approximation of [erf] has the sign of its argument (positive
    at 0) and stays strictly inside (-1, 1); the CDF built on it stays
    strictly inside (0, 1), the range of the CDF axis, above 1/2 from 0 on and
    below 1/2 on the negative side. *)
Theorem erf_and_cdf_ranges (x : R) :
  (0 <= x -> 0 < Clt.normal.erf x < 1) /\
  (x < 0 -> -1 < Clt.normal.erf x < 0) /\
  0 < Clt.normal.cdf x < 1 /\
  (0 <= x -> 1 / 2 < Clt.normal.cdf x) /\
  (x < 0 -> Clt.normal.cdf x < 1 / 2).
Proof.
  assert (Hpos : forall z, 0 <= z -> 0 < Clt.normal.erf z < 1).
  { intros z Hz. destruct (erf_magnitude z) as [y [Hy ->]].
    destruct (Rge_dec z 0); lra. }
  assert (Hneg : forall z, z < 0 -> -1 < Clt.normal.erf z < 0).
  { intros z Hz. destruct (erf_magnitude z) as [y [Hy ->]].
    destruct (Rge_dec z 0); lra. }
  assert (Hs : 0 < / sqrt 2) by (apply Rinv_0_lt_compat, sqrt_lt_R0; lra).
  split; [apply Hpos|]. split; [apply Hneg|].
  unfold Clt.normal.cdf.
  destruct (Rle_lt_dec 0 x) as [Hx|Hx].
  - assert (Hz : 0 <= x / sqrt 2) by (apply Rmult_le_pos; lra).
    pose proof (Hpos _ Hz). repeat split; intros; lra.
  - assert (Hz : x / sqrt 2 < 0).
    { unfold Rdiv. rewrite <- (Rmult_0_l (/ sqrt 2)).
      now apply Rmult_lt_compat_r. }
    pose proof (Hneg _ Hz). repeat split; intros; lra.
Qed.

(** X12.  The normal density is positive and even, is largest at 0 where it
    is [1 / sqrt (2 PI)], and stays below 0.45: the red curve lies inside the
    density axis [[0, Math.max(0.45, maxDensity * 1.15)]] whatever the
    histogram. *)
Theorem normal_pdf_fits_density_axis (x maxDensity : R) :
  0 < Clt.normal.pdf x <= Clt.normal.pdf 0 /\
  Clt.normal.pdf (- x) = Clt.normal.pdf x /\
  Clt.normal.pdf 0 = 1 / sqrt (2 * PI) /\
  Clt.normal.pdf x < 0.45 /\
  Clt.normal.pdf x < Clt.yScale1_top maxDensity.
Proof.
  assert (HPI : 3 < PI) by (pose proof PI2_3_2; lra).
  assert (Hroot : 2.4 < sqrt (2 * PI)).
  { rewrite <- (sqrt_square 2.4) by lra. apply sqrt_lt_1_alt. lra. }
  assert (Hc : 0 < 1 / sqrt (2 * PI) < 0.45).
  { split; [apply Rdiv_lt_0_compat; lra|].
    apply Rmult_lt_reg_r with (sqrt (2 * PI)); [lra|].
    replace (1 / sqrt (2 * PI) * sqrt (2 * PI)) with 1 by (field; lra). lra. }
  assert (H0 : Clt.normal.pdf 0 = 1 / sqrt (2 * PI)).
  { unfold Clt.normal.pdf. replace (-0.5 * 0 * 0) with 0 by lra.
    rewrite exp_0. ring. }
  assert (He : 0 < exp (-0.5 * x * x) <= 1).
  { split; [apply exp_pos|]. rewrite <- exp_0.
    assert (Hsq : 0 <= x * x) by apply Rle_0_sqr.
    destruct (Req_dec (x * x) 0) as [H|H].
    - right. f_equal. rewrite Rmult_assoc, H. ring.
    - left. apply exp_increasing. lra. }
  assert (Hle : 0 < Clt.normal.pdf x <= Clt.normal.pdf 0).
  { rewrite H0. unfold Clt.normal.pdf. split.
    - apply Rmult_lt_0_compat; lra.
    - rewrite <- (Rmult_1_r (1 / sqrt (2 * PI))) at 2.
      apply Rmult_le_compat_l; lra. }
  split; [exact Hle|].
  split; [unfold Clt.normal.pdf; f_equal; f_equal; ring|].
  split; [exact H0|].
  split; [lra|].
  unfold Clt.yScale1_top. pose proof (Rmax_l 0.45 (maxDensity * 1.15)). lra.
Qed.

(** ** The samplers *)

(** X13.  On a number [u] that [Math.random()] can return ([0 <= u < 1]) the
    Uniform sampler stays in [[0, 1)], the Exponential sampler is
    non-negative, the Bernoulli sampler returns 0 or 1, and the Skewed
    Discrete sampler returns 0, 1 or 10. *)
Theorem sampler_ranges (u : R) :
  0 <= u < 1 ->
  0 <= Clt.random Clt.Uniform u < 1 /\
  0 <= Clt.random Clt.Exponential u /\
  (Clt.random Clt.Bernoulli u = 0 \/ Clt.random Clt.Bernoulli u = 1) /\
  (Clt.random Clt.Skewed_Discrete u = 0 \/ Clt.random Clt.Skewed_Discrete u = 1 \/
   Clt.random Clt.Skewed_Discrete u = 10).
Proof.
  intros Hu. simpl. split; [lra|]. split.
  - destruct (Req_dec u 0) as [->|Hne].
    + replace (1 - 0) with 1 by ring. rewrite ln_1. lra.
    + assert (ln (1 - u) < 0).
      { rewrite <- ln_1. apply ln_increasing; lra. }
      lra.
  - split.
    + destruct (Rlt_dec u 0.5); [right | left]; reflexivity.
    + destruct (Rlt_dec u Clt.skewed_p1); [now left|].
      destruct (Rlt_dec u (Clt.skewed_p1 + Clt.skewed_p2));
        [right; now left | right; now right].
Qed.

Lemma sampler_ranges_witness :
  0 <= Clt.random Clt.Uniform 0.25 < 1 /\
  0 <= Clt.random Clt.Exponential 0.25 /\
  (Clt.random Clt.Bernoulli 0.25 = 0 \/ Clt.random Clt.Bernoulli 0.25 = 1) /\
  (Clt.random Clt.Skewed_Discrete 0.25 = 0 \/ Clt.random Clt.Skewed_Discrete 0.25 = 1 \/
   Clt.random Clt.Skewed_Discrete 0.25 = 10).
Proof.
  apply (sampler_ranges 0.25). lra.
Defined.

(** ** What the simulation returns *)

Lemma flat_map_shift {B : Type} (g : nat -> list B) (l : list nat) :
  flat_map g (map S l) = flat_map (fun k => g (S k)) l.
Proof.
  induction l as [|a l IH]; simpl; [reflexivity | now rewrite IH].
Qed.

Section SimulationValues.

Variable Math_random : nat -> R.

Lemma sample_sum_value (d : Clt.Distribution) (count : nat) (sum : R) (s : Clt.state) :
  Clt.sample_sum Math_random (Clt.Own d) count sum s
  = Clt.Ok (sum + Rsum (map (fun j => Clt.random d (Math_random (Clt.calls s + j)%nat))
                            (seq 0 count)))
      {| Clt.calls := (Clt.calls s + count)%nat; Clt.divisions := Clt.divisions s |}.
Proof.
  revert sum s. induction count as [|c IH]; intros sum s.
  - simpl. unfold Clt.ret. destruct s as [k dv]; simpl.
    rewrite Nat.add_0_r. f_equal. lra.
  - cbn [Clt.sample_sum]. unfold Clt.bind at 1. cbn [Clt.call_random].
    rewrite IH. cbn [Clt.calls Clt.divisions].
    cbn [seq]. rewrite <- seq_shift. cbn [map]. rewrite map_map.
    rewrite Nat.add_0_r.
    f_equal.
    + rewrite (map_ext (fun j => Clt.random d (Math_random (S (Clt.calls s) + j)%nat))
                       (fun j => Clt.random d (Math_random (Clt.calls s + S j)%nat)))
        by (intros j; do 2 f_equal; lia).
      unfold Rsum. cbn [fold_right]. lra.
    + f_equal. lia.
Qed.

Lemma repetition_value (d : Clt.Distribution) (n : Z) (l : list R) (s : Clt.state) :
  0 < Clt.std d ->
  Clt.repetition Math_random (Clt.Own d) n l s
  = Clt.Ok (l ++ [z_score d n (block_mean Math_random d n (Clt.calls s))])
      {| Clt.calls := (Clt.calls s + Z.to_nat n)%nat;
         Clt.divisions :=
           Clt.divisions s
           ++ [ (Clt.std d, sqrt (IZR n));
                (block_mean Math_random d n (Clt.calls s) - Clt.mean d,
                 Clt.std d / sqrt (IZR n)) ] |}.
Proof.
  intros Hstd. unfold Clt.repetition. unfold Clt.bind at 1.
  rewrite sample_sum_value.
  unfold Clt.bind, Clt.std_positive, Clt.ret, Clt.divide.
  cbn [Clt.calls Clt.divisions].
  destruct (Rlt_dec 0 (Clt.std d)); [|contradiction].
  unfold z_score, block_mean. rewrite Rplus_0_l, <- app_assoc. reflexivity.
Qed.

Lemma repetitions_value (d : Clt.Distribution) (n : Z) (count : nat)
  (l : list R) (s : Clt.state) :
  0 < Clt.std d ->
  Clt.repetitions Math_random (Clt.Own d) n count l s
  = Clt.Ok
      (l ++ map (fun k => z_score d n
                            (block_mean Math_random d n
                               (Clt.calls s + k * Z.to_nat n)))
                (seq 0 count))
      {| Clt.calls := (Clt.calls s + count * Z.to_nat n)%nat;
         Clt.divisions :=
           Clt.divisions s
           ++ flat_map
                (fun k =>
                   [ (Clt.std d, sqrt (IZR n));
                     (block_mean Math_random d n (Clt.calls s + k * Z.to_nat n)
                      - Clt.mean d,
                      Clt.std d / sqrt (IZR n)) ])
                (seq 0 count) |}.
Proof.
  intros Hstd. revert l s. induction count as [|c IH]; intros l s.
  - simpl. unfold Clt.ret. destruct s as [k dv]; simpl.
    now rewrite Nat.add_0_r, !app_nil_r.
  - cbn [Clt.repetitions]. unfold Clt.bind.
    rewrite repetition_value by assumption. rewrite IH.
    cbn [Clt.calls Clt.divisions seq].
    rewrite <- seq_shift. cbn [map flat_map].
    rewrite map_map, flat_map_shift.
    rewrite Nat.mul_0_l, Nat.add_0_r, <- !app_assoc. cbn [app].
    assert (E : forall k, (Clt.calls s + Z.to_nat n + k * Z.to_nat n
                           = Clt.calls s + S k * Z.to_nat n)%nat) by (intros; lia).
    f_equal.
    + do 2 f_equal. apply map_ext. intros k. now rewrite E.
    + f_equal; [apply (E c)|]. do 3 f_equal.
      apply flat_map_ext. intros k. now rewrite E.
Qed.

End SimulationValues.

Lemma registered_own (name : String.string) :
  In name Clt.registered_names ->
  exists d, Clt.distributions name = Clt.Own d /\ 0 < Clt.std d.
Proof.
  simpl. intros [<-|[<-|[<-|[<-|[]]]]].
  - exists Clt.Uniform. split; [reflexivity|]. simpl.
    apply Rdiv_lt_0_compat; [lra | apply sqrt_lt_R0; lra].
  - exists Clt.Exponential. split; [reflexivity|]. simpl. lra.
  - exists Clt.Bernoulli. split; [reflexivity|]. simpl. lra.
  - exists Clt.Skewed_Discrete. split; [reflexivity|]. simpl.
    apply sqrt_lt_R0. destruct skewed_declared as [_ [_ ->]]. lra.
Qed.

Lemma flat_map_pairs_length {A B : Type} (g h : A -> B) (l : list A) :
  length (flat_map (fun k => [g k; h k]) l) = (2 * length l)%nat.
Proof.
  induction l as [|a l IH]; simpl; [reflexivity | rewrite IH; lia].
Qed.

(** X14.  For each of the four registered names the simulation never throws
    and never divides by zero.  With [sampleSize > 0] it returns
    [numSimulations] standardized means (none when [numSimulations <= 0]),
    calls [Math.random()] exactly [numSimulations * sampleSize] times, and
    evaluates two divisions per mean, each with a positive divisor; with
    [sampleSize <= 0] it returns no mean, draws nothing and divides
    nothing. *)
Theorem registered_simulation_is_safe (Math_random : nat -> R)
  (name : String.string) (sampleSize numSimulations : Z) (s : Clt.state) :
  In name Clt.registered_names ->
  exists c s',
    Clt.createVisualization Math_random
      {| Clt.distName := Some name;
         Clt.sampleSize := Some sampleSize;
         Clt.numSimulations := Some numSimulations |} s
    = Clt.Ok c s' /\
    length (Clt.standardizedMeans c)
      = (if (sampleSize >? 0)%Z then Z.to_nat numSimulations else 0%nat) /\
    Clt.calls s'
      = (Clt.calls s + length (Clt.standardizedMeans c) * Z.to_nat sampleSize)%nat /\
    exists ds,
      Clt.divisions s' = Clt.divisions s ++ ds /\
      length ds = (2 * length (Clt.standardizedMeans c))%nat /\
      Forall (fun division => 0 < snd division) ds.
Proof.
  intros Hname. destruct (registered_own name Hname) as [d [Hd Hstd]].
  unfold Clt.createVisualization, Clt.default.
  cbn [Clt.distName Clt.sampleSize Clt.numSimulations].
  rewrite Hd. unfold Clt.bind, Clt.run_simulation.
  destruct (sampleSize >? 0)%Z eqn:Hn.
  - rewrite repetitions_value by assumption. unfold Clt.ret.
    do 2 eexists. split; [reflexivity|].
    cbn [Clt.standardizedMeans Clt.calls Clt.divisions app].
    rewrite length_map, length_seq.
    split; [reflexivity|]. split; [reflexivity|].
    eexists. split; [reflexivity|].
    split; [now rewrite flat_map_pairs_length, length_seq|].
    assert (Hroot : 0 < sqrt (IZR sampleSize)).
    { apply sqrt_lt_R0, IZR_lt. lia. }
    apply Forall_forall. intros division Hin.
    apply in_flat_map in Hin. destruct Hin as [k [_ [<-|[<-|[]]]]]; simpl;
      [assumption | now apply Rdiv_lt_0_compat].
  - unfold Clt.ret. do 2 eexists. split; [reflexivity|].
    cbn [Clt.standardizedMeans length]. split; [reflexivity|].
    split; [lia|]. exists []. split; [now rewrite app_nil_r|].
    split; [reflexivity | constructor].
Qed.

Lemma registered_simulation_is_safe_witness :
  exists c s',
    Clt.createVisualization (fun _ => 0.25)
      {| Clt.distName := Some "Exponential"%string;
         Clt.sampleSize := Some 30%Z;
         Clt.numSimulations := Some 2000%Z |} Clt.initial
    = Clt.Ok c s' /\
    length (Clt.standardizedMeans c)
      = (if (30 >? 0)%Z then Z.to_nat 2000 else 0%nat) /\
    Clt.calls s'
      = (Clt.calls Clt.initial
         + length (Clt.standardizedMeans c) * Z.to_nat 30)%nat /\
    exists ds,
      Clt.divisions s' = Clt.divisions Clt.initial ++ ds /\
      length ds = (2 * length (Clt.standardizedMeans c))%nat /\
      Forall (fun division => 0 < snd division) ds.
Proof.
  apply (registered_simulation_is_safe (fun _ => 0.25) "Exponential"%string
           30 2000 Clt.initial).
  simpl. tauto.
Defined.

(** X15.  With a positive [std] and a positive sample size, the [k]-th
    standardized mean (from 0) is the z-score
    [(mean_k - dist.mean) / (dist.std / sqrt sampleSize)] of the mean of its
    own block of [sampleSize] consecutive draws, the draws number
    [k * sampleSize] to [(k + 1) * sampleSize - 1] of the run: no draw is
    shared between two repetitions and none is skipped. *)
Theorem standardized_means_by_block (Math_random : nat -> R) (d : Clt.Distribution)
  (sampleSize numSimulations : Z) (s : Clt.state) :
  0 < Clt.std d -> (0 < sampleSize)%Z ->
  exists s',
    Clt.run_simulation Math_random (Clt.Own d) sampleSize numSimulations s
    = Clt.Ok
        (map (fun k => z_score d sampleSize
                         (block_mean Math_random d sampleSize
                            (Clt.calls s + k * Z.to_nat sampleSize)))
             (seq 0 (Z.to_nat numSimulations))) s' /\
    Clt.calls s'
      = (Clt.calls s + Z.to_nat numSimulations * Z.to_nat sampleSize)%nat.
Proof.
  intros Hstd Hn. unfold Clt.run_simulation.
  replace (sampleSize >? 0)%Z with true by (symmetry; apply Z.gtb_lt; lia).
  rewrite repetitions_value by assumption.
  eexists. split; reflexivity.
Qed.

Lemma standardized_means_by_block_witness :
  exists s',
    Clt.run_simulation (fun _ => 0.25) (Clt.Own Clt.Bernoulli) 5 3 Clt.initial
    = Clt.Ok
        (map (fun k => z_score Clt.Bernoulli 5
                         (block_mean (fun _ => 0.25) Clt.Bernoulli 5
                            (Clt.calls Clt.initial + k * Z.to_nat 5)))
             (seq 0 (Z.to_nat 3))) s' /\
    Clt.calls s' = (Clt.calls Clt.initial + Z.to_nat 3 * Z.to_nat 5)%nat.
Proof.
  apply (standardized_means_by_block (fun _ => 0.25) Clt.Bernoulli 5 3 Clt.initial).
  - simpl. lra.
  - lia.
Defined.

Lemma Rsum_bounds (lo hi : R) (l : list R) :
  Forall (fun v => lo <= v <= hi) l ->
  INR (length l) * lo <= Rsum l <= INR (length l) * hi.
Proof.
  induction 1 as [|a l Ha _ IH]; [simpl; lra|].
  cbn [length Rsum fold_right]. rewrite S_INR. unfold Rsum in IH. lra.
Qed.

Lemma block_mean_bounds (Math_random : nat -> R) (d : Clt.Distribution) (n : Z)
  (first : nat) (lo hi : R) :
  (0 < n)%Z ->
  (forall k, lo <= Clt.random d (Math_random k) <= hi) ->
  lo <= block_mean Math_random d n first <= hi.
Proof.
  intros Hn Hrange. unfold block_mean.
  assert (Hpos : 0 < IZR n) by now apply IZR_lt.
  pose proof (Rsum_bounds lo hi
                (map (fun j => Clt.random d (Math_random (first + j)%nat))
                   (seq 0 (Z.to_nat n)))) as Hb.
  rewrite length_map, length_seq, INR_IZR_INZ, Z2Nat.id in Hb by lia.
  destruct Hb as [Hlo Hhi].
  { apply Forall_forall. intros v Hv. apply in_map_iff in Hv.
    destruct Hv as [j [<- _]]. apply Hrange. }
  split.
  - apply Rmult_le_reg_r with (IZR n); [assumption|].
    unfold Rdiv. rewrite Rmult_assoc, Rinv_l by lra. lra.
  - apply Rmult_le_reg_r with (IZR n); [assumption|].
    unfold Rdiv. rewrite Rmult_assoc, Rinv_l by lra. lra.
Qed.

(** X16.  If every sample lies between [lo] and [hi], every standardized
    mean lies between the z-scores of [lo] and of [hi]. *)
Theorem standardized_means_are_bounded (Math_random : nat -> R)
  (d : Clt.Distribution) (sampleSize numSimulations : Z) (s : Clt.state)
  (lo hi : R) :
  0 < Clt.std d -> (0 < sampleSize)%Z ->
  (forall k, lo <= Clt.random d (Math_random k) <= hi) ->
  exists zs s',
    Clt.run_simulation Math_random (Clt.Own d) sampleSize numSimulations s
    = Clt.Ok zs s' /\
    Forall (fun z => z_score d sampleSize lo <= z <= z_score d sampleSize hi) zs.
Proof.
  intros Hstd Hn Hrange. unfold Clt.run_simulation.
  replace (sampleSize >? 0)%Z with true by (symmetry; apply Z.gtb_lt; lia).
  rewrite repetitions_value by assumption.
  do 2 eexists. split; [reflexivity|]. cbn [app].
  apply Forall_forall. intros z Hz. apply in_map_iff in Hz.
  destruct Hz as [k [<- _]].
  pose proof (block_mean_bounds Math_random d sampleSize
                (Clt.calls s + k * Z.to_nat sampleSize) lo hi Hn Hrange) as [Hlo Hhi].
  assert (Hse : 0 < / (Clt.std d / sqrt (IZR sampleSize))).
  { apply Rinv_0_lt_compat, Rdiv_lt_0_compat; [assumption|].
    apply sqrt_lt_R0, IZR_lt. lia. }
  unfold z_score, Rdiv at 1 3 5.
  split; apply Rmult_le_compat_r; lra.
Qed.

Lemma bernoulli_z_scores (n : Z) :
  (0 < n)%Z ->
  z_score Clt.Bernoulli n 0 = - sqrt (IZR n) /\
  z_score Clt.Bernoulli n 1 = sqrt (IZR n).
Proof.
  intros Hn. unfold z_score. simpl.
  assert (0 < sqrt (IZR n)) by (apply sqrt_lt_R0, IZR_lt; lia).
  replace 0.5 with (/ 2) by lra.
  split; field; lra.
Qed.

(** For the Bernoulli entry, samples of size 30: every standardized mean lies
    in [[- sqrt 30, sqrt 30]]. *)
Lemma standardized_means_are_bounded_witness :
  exists zs s',
    Clt.run_simulation (fun _ => 0.25) (Clt.Own Clt.Bernoulli) 30 2000 Clt.initial
    = Clt.Ok zs s' /\
    Forall (fun z => - sqrt 30 <= z <= sqrt 30) zs.
Proof.
  destruct (standardized_means_are_bounded (fun _ => 0.25) Clt.Bernoulli 30 2000
              Clt.initial 0 1) as [zs [s' [Hrun Hall]]].
  - simpl. lra.
  - lia.
  - intros k. simpl. destruct (Rlt_dec 0.25 0.5); lra.
  - exists zs, s'. split; [exact Hrun|].
    destruct (bernoulli_z_scores 30) as [H0 H1]; [lia|].
    now rewrite H0, H1 in Hall.
Defined.

(** ** The empirical CDF as a function of the sample *)

(** An ascending list is determined by its elements. *)
Lemma sorted_perm_unique (a b : list R) :
  StronglySorted Rle a -> StronglySorted Rle b -> Permutation a b -> a = b.
Proof.
  revert b. induction a as [|x a IH]; intros b Ha Hb Hperm.
  - apply Permutation_nil in Hperm. now subst.
  - destruct b as [|y b].
    { apply Permutation_sym, Permutation_nil in Hperm. discriminate. }
    inversion Ha as [|? ? Ha' Hxa]; subst.
    inversion Hb as [|? ? Hb' Hyb]; subst.
    rewrite Forall_forall in Hxa, Hyb.
    assert (Hxy : x = y).
    { assert (Hx : In x (y :: b)) by (apply (Permutation_in _ Hperm); now left).
      assert (Hy : In y (x :: a))
        by (apply (Permutation_in _ (Permutation_sym Hperm)); now left).
      destruct Hx as [->|Hx]; [reflexivity|].
      destruct Hy as [->|Hy]; [reflexivity|].
      pose proof (Hxa y Hy). pose proof (Hyb x Hx). lra. }
    subst y. f_equal. apply IH; try assumption.
    now apply Permutation_cons_inv in Hperm.
Qed.

Lemma sortedMeans_perm (l l' : list R) :
  Permutation l l' -> Clt.sortedMeans l = Clt.sortedMeans l'.
Proof.
  intros Hperm. unfold Clt.sortedMeans.
  apply sorted_perm_unique; try apply sort_sorted.
  rewrite !sort_perm. exact Hperm.
Qed.

(** X17.  The empirical CDF depends on the standardized means as a multiset
    only: two runs whose outputs are permutations of each other give the same
    sorted sequence and the same step sequence, point for point. *)
Theorem ecdf_ignores_the_order_of_the_sample (l l' : list R) :
  Permutation l l' ->
  Clt.sortedMeans l = Clt.sortedMeans l' /\ Clt.ecdfData l = Clt.ecdfData l'.
Proof.
  intros Hperm. pose proof (sortedMeans_perm l l' Hperm) as Hs.
  split; [exact Hs|]. unfold Clt.ecdfData. now rewrite Hs.
Qed.

Lemma ecdf_ignores_the_order_of_the_sample_witness :
  Clt.sortedMeans [0.5; -1; 2] = Clt.sortedMeans [2; 0.5; -1] /\
  Clt.ecdfData [0.5; -1; 2] = Clt.ecdfData [2; 0.5; -1].
Proof.
  apply (ecdf_ignores_the_order_of_the_sample [0.5; -1; 2] [2; 0.5; -1]).
  change [2; 0.5; -1] with ([2] ++ [0.5; -1]).
  change [0.5; -1; 2] with ([0.5; -1] ++ [2]).
  apply Permutation_app_comm.
Defined.

Lemma doubled_sorted (s : list R) :
  StronglySorted Rle s -> StronglySorted Rle (flat_map (fun v => [v; v]) s).
Proof.
  induction 1 as [|a s Hs IH Ha]; simpl; [constructor|].
  assert (Hall : Forall (Rle a) (flat_map (fun v => [v; v]) s)).
  { rewrite Forall_forall in *. intros v Hv. apply in_flat_map in Hv.
    destruct Hv as [w [Hw [<-|[<-|[]]]]]; now apply Ha. }
  constructor; [constructor; assumption|].
  constructor; [lra | assumption].
Qed.

Lemma flat_map_nth_seq {B : Type} (G : R -> list B) (s : list R) :
  flat_map (fun k => G (nth k s 0)) (seq 0 (length s)) = flat_map G s.
Proof.
  rewrite !flat_map_concat_map. f_equal. apply (map_nth_seq G).
Qed.

Lemma ecdf_abscissas (s : list R) (M : R) (from count : nat) :
  (from + count <= length s)%nat ->
  map Clt.x
    (flat_map (fun k => [ {| Clt.x := nth_error s k; Clt.y := INR k / M |};
                          {| Clt.x := nth_error s k; Clt.y := (INR k + 1) / M |} ])
       (seq from count))
  = map Some (flat_map (fun k => [nth k s 0; nth k s 0]) (seq from count)).
Proof.
  revert from. induction count as [|c IH]; intros from Hle; [reflexivity|].
  cbn [seq flat_map map app]. rewrite IH by lia.
  rewrite (nth_error_nth' s 0) by lia. reflexivity.
Qed.

(** X18.  The step path of the empirical CDF moves rightwards and stays
    inside the CDF axis: for every sample (empty or not) the abscissas of
    [ecdfData] are all defined, are values of the sample, and are in
    ascending order, and every height lies in [[0, 1]]. *)
Theorem ecdf_path_is_monotone_and_in_range (l : list R) :
  exists xs,
    map Clt.x (Clt.ecdfData l) = map Some xs /\
    StronglySorted Rle xs /\
    Forall (fun v => In v l) xs /\
    Forall (fun p => 0 <= Clt.y p <= 1) (Clt.ecdfData l).
Proof.
  destruct l as [|a0 l0] eqn:El.
  { exists []. repeat split; constructor. }
  rewrite <- El. assert (Hne : l <> []) by (rewrite El; discriminate).
  clear El a0 l0.
  pose proof (sort_perm D3.ascending l) as Hperm.
  pose proof (sort_sorted l) as Hsorted.
  fold (Clt.sortedMeans l) in Hperm, Hsorted.
  assert (Hlen : length (Clt.sortedMeans l) = length l)
    by now apply Permutation_length.
  assert (Hm : (0 < length l)%nat) by (destruct l; [congruence | simpl; lia]).
  assert (HM : 0 < INR (length l)) by now apply lt_0_INR.
  destruct (Clt.sortedMeans l) as [|s0 rest] eqn:Es; [simpl in Hlen; lia|].
  exists (s0 :: flat_map (fun v => [v; v]) (s0 :: rest)).
  split.
  { rewrite ecdfData_steps by assumption. rewrite Es. cbn [map Clt.x nth_error].
    f_equal. rewrite <- Hlen.
    rewrite (ecdf_abscissas (s0 :: rest) _ 0 (length (s0 :: rest))) by lia.
    f_equal. apply (flat_map_nth_seq (fun v => [v; v])). }
  split.
  { constructor; [now apply doubled_sorted|].
    apply Forall_forall. intros v Hv. apply in_flat_map in Hv.
    destruct Hv as [w [Hw [<-|[<-|[]]]]];
      (destruct Hw as [<-|Hw]; [lra|]);
      inversion Hsorted as [|? ? _ Hall]; subst;
      rewrite Forall_forall in Hall; now apply Hall. }
  split.
  { apply Forall_forall. intros v Hv.
    apply (Permutation_in _ Hperm).
    destruct Hv as [<-|Hv]; [now left|].
    apply in_flat_map in Hv. destruct Hv as [w [Hw [<-|[<-|[]]]]]; assumption. }
  rewrite ecdfData_steps by assumption.
  constructor; [simpl; lra|].
  apply Forall_forall. intros p Hp. apply in_flat_map in Hp.
  destruct Hp as [k [Hk Hp]]. apply in_seq in Hk.
  assert (Hk0 : 0 <= INR k) by apply pos_INR.
  assert (Hk1 : INR k + 1 <= INR (length l)).
  { rewrite <- S_INR. apply le_INR. lia. }
  assert (Hinv : 0 < / INR (length l)) by now apply Rinv_0_lt_compat.
  assert (Hdiv : forall v, 0 <= v <= INR (length l) -> 0 <= v / INR (length l) <= 1).
  { intros v Hv. split.
    - apply Rmult_le_pos; lra.
    - apply Rmult_le_reg_r with (INR (length l)); [assumption|].
      unfold Rdiv. rewrite Rmult_assoc, Rinv_l by lra. lra. }
  destruct Hp as [<-|[<-|[]]]; simpl; apply Hdiv; lra.
Qed.
